(** * The treesaver document index (src/lib/array.js, src/ui/settings.js)

    A shallow embedding of [treesaver.array.remove], [treesaver.ui.Index]
    and [treesaver.ui.Settings], with the properties of the index tree and
    of its flat cache.

    Conventions of the embedding:
    - a JavaScript value that can reach the code from JSON is a [JSValue];
    - a JavaScript object used as a dictionary ([documentMap],
      [documentPositions], [meta], [settings]) is the [gmap string _] of
      its own properties, read and written through [read_property] and
      [assign_property], which know what an object created by [{}]
      inherits from [Object.prototype];
    - a method that mutates [this] takes the receiver and returns the new
      receiver next to its result;
    - [treesaver.debug.warn] appends to a list of messages, a thrown
      exception ends the computation ([Outcome]). *)

From stdpp Require Import gmap strings list fin_maps pretty.
From Stdlib Require Import ZArith Lia Sorted.

Set Warnings "-register-all".

Open Scope string_scope.
Open Scope list_scope.
Open Scope Z_scope.

(** ** JavaScript values *)

(** The values JSON can describe. A number is kept as an integer: the code
    only ever tests a number for truthiness and copies it. An object is the
    list of its own enumerable properties, in enumeration order. *)
Inductive JSValue : Type :=
| JUndefined
| JNull
| JBool (b : bool)
| JNum (n : Z)
| JStr (s : string)
| JArr (elems : list JSValue)
| JObj (fields : list (string * JSValue)).

(** [!!v] *)
Definition truthy (v : JSValue) : bool :=
  match v with
  | JUndefined | JNull => false
  | JBool b => b
  | JNum n => negb (n =? 0)
  | JStr s => negb (String.eqb s "")
  | JArr _ | JObj _ => true
  end.

(** [v !== false] *)
Definition strict_neq_false (v : JSValue) : bool :=
  match v with
  | JBool false => false
  | _ => true
  end.

(** [Array.isArray(v)] *)
Definition isArray (v : JSValue) : bool :=
  match v with JArr _ => true | _ => false end.

(** ** Documents *)

(** A [treesaver.ui.Document]: a tree node ([children]) with a canonical
    url and a metadata object, kept as its own properties. *)
Inductive Doc : Type :=
  mkDoc (doc_url : string) (doc_meta : gmap string JSValue) (doc_children : list Doc).

Definition url (d : Doc) : string := match d with mkDoc u _ _ => u end.
Definition meta (d : Doc) : gmap string JSValue := match d with mkDoc _ m _ => m end.

(** The part of [treesaver.ui.TreeNode] that [Document] and [Index]
    inherit: the [children] array. *)
Class TreeNode (T : Type) := {
  children : T → list Doc;
  set_children : list Doc → T → T
}.

#[global] Instance Doc_TreeNode : TreeNode Doc := {|
  children d := match d with mkDoc _ _ c => c end;
  set_children c d := mkDoc (url d) (meta d) c
|}.

(** ** Outcomes: warnings and exceptions *)

Inductive Exn : Type :=
| TypeError (msg : string)
| RangeError (msg : string)
| OutOfContract (msg : string).

(** What a call does besides changing its receiver: it returns a value or
    throws, and in both cases leaves the messages it passed to
    [treesaver.debug.warn], oldest first. *)
Inductive Outcome (A : Type) : Type :=
| Returns (a : A) (warnings : list string)
| Throws (e : Exn) (warnings : list string).
Arguments Returns {A} a warnings.
Arguments Throws {A} e warnings.

(** The outcome [c], after the warnings [w]. *)
Definition with_warnings {A : Type} (w : list string) (c : Outcome A) : Outcome A :=
  match c with
  | Returns a w' => Returns a (w ++ w')
  | Throws e w' => Throws e (w ++ w')
  end.

#[global] Instance Outcome_ret : MRet Outcome := λ A a, Returns a [].
#[global] Instance Outcome_bind : MBind Outcome := λ A B f c,
  match c with
  | Returns a w => with_warnings w (f a)
  | Throws e w => Throws e w
  end.

Definition warn (msg : string) : Outcome () := Returns () [msg].
Definition throw {A : Type} (e : Exn) : Outcome A := Throws e [].

(** [array.forEach] with a callback that updates an accumulator (the
    variables of the enclosing function the callback assigns to). *)
Definition forEach {A B : Type} (cb : B → A → Outcome B) : list A → B → Outcome B :=
  fix go (l : list A) (acc : B) : Outcome B :=
    match l with
    | [] => mret acc
    | x :: rest => acc' ← cb acc x; go rest acc'
    end.

(** ** Properties of objects *)

(** The value of the own property [k] in a list of properties, [undefined]
    when there is none. *)
Fixpoint lookup_field (k : string) (fields : list (string * JSValue)) : JSValue :=
  match fields with
  | [] => JUndefined
  | (k', v) :: rest => if String.eqb k k' then v else lookup_field k rest
  end.

(** [v[k]] for a name [k] that is neither an array index nor a property
    every string or array has ([length] and the like): reading a property
    of [null] or [undefined] throws, a primitive or an array has no such
    property. *)
Definition get_prop (v : JSValue) (k : string) : Outcome JSValue :=
  match v with
  | JUndefined | JNull => throw (TypeError "Cannot read property of null or undefined")
  | JObj fields => mret (lookup_field k fields)
  | _ => mret JUndefined
  end.

(** [Object.keys(o, ...)] of ES5: the names of the own enumerable
    properties of an object, a [TypeError] for anything that is not an
    object. The function takes one argument, further ones are ignored. *)
Definition Object_keys {X : Type} (o : JSValue) (ignored : X) : Outcome (list string) :=
  match o with
  | JObj fields => mret fields.*1
  | JArr elems => mret (pretty <$> seq 0 (length elems))
  | _ => throw (TypeError "Object.keys called on non-object")
  end.

(** The elements of an array value. *)
Definition elements (v : JSValue) : list JSValue :=
  match v with JArr elems => elems | _ => [] end.

(** ** Objects created by {} and Object.prototype *)

(** The names of the properties of [Object.prototype]: every object
    created by [{}] has them, inherited. *)
Definition Object_prototype_names : list string :=
  ["constructor"; "toString"; "toLocaleString"; "valueOf"; "hasOwnProperty";
   "isPrototypeOf"; "propertyIsEnumerable"; "__proto__";
   "__defineGetter__"; "__defineSetter__"; "__lookupGetter__"; "__lookupSetter__"].

Definition inherited_name (k : string) : bool :=
  bool_decide (k ∈ Object_prototype_names).

(** What [o[k]] finds in an object created by [{}] that has the own
    properties [own]: the own property, else the property of
    [Object.prototype] (a function, or the prototype itself for
    [__proto__]: truthy, and not an array), else nothing ([undefined]). *)
Inductive PropertyRead (V : Type) : Type :=
| OwnValue (v : V)
| InheritedValue
| NoValue.
Arguments OwnValue {V} v.
Arguments InheritedValue {V}.
Arguments NoValue {V}.

Definition read_property {V : Type} (own : gmap string V) (k : string) : PropertyRead V :=
  match own !! k with
  | Some v => OwnValue v
  | None => if inherited_name k then InheritedValue else NoValue
  end.

(** The own properties after [o[k] = v] on such an object. Without an
    own property [__proto__], an assignment to [__proto__] goes to the
    setter that [Object.prototype] has for it and stores no own property
    (the setter makes [v] the prototype of [o] when [v] is an object or
    [null] and does nothing otherwise; own properties are all that is
    kept of an object here). *)
Definition assign_property {V : Type} (k : string) (v : V) (own : gmap string V)
  : gmap string V :=
  match own !! k with
  | Some _ => <[k := v]> own
  | None => if String.eqb k "__proto__" then own else <[k := v]> own
  end.

(** ** TreeNode and Document *)

(** Modelled from the spec: [treesaver.ui.TreeNode.prototype.appendChild]
    is not in the sources. Spec 4.1: it appends [node] to the end of
    [children] and returns it, and returns the unchanged input when [node]
    is null or absent. A possibly-null reference to a document is an
    [option Doc]. *)
Definition appendChild {T : Type} `{TreeNode T} (this : T) (node : option Doc) : option Doc * T :=
  match node with
  | None => (None, this)
  | Some d => (Some d, set_children (children this ++ [d]) this)
  end.

(** Modelled from the spec: the constructor [treesaver.ui.Document] is not
    in the sources. Spec 4.2: a document is constructed from [(url, meta)];
    as a new tree node it has no children. *)
Definition Document_new (url : string) (meta : gmap string JSValue) : Doc :=
  mkDoc url meta [].

(** Modelled from the spec: [treesaver.ui.Document.prototype.equals] is not
    in the sources. Spec 4.2: [other] may be a Document or a plain url
    string; true iff the canonical urls match exactly. *)
Definition equals (this : Doc) (other : Doc + string) : bool :=
  match other with
  | inl d => String.eqb (url this) (url d)
  | inr u => String.eqb (url this) u
  end.

(** ** Index.prototype.walk *)

Section Walk.
(** The visitor [fn] runs against a state [St] (the variables its closure
    and its scope object hold) and returns any value. *)
Context {St : Type}.

(** [Array.prototype.every] with a callback that has effects: stops at
    the first element for which the callback returns a falsy value. *)
Definition every {A : Type} (cb : A → St → bool * St) : list A → St → bool * St :=
  fix go (l : list A) (s : St) : bool * St :=
    match l with
    | [] => (true, s)
    | x :: rest =>
        let '(b, s') := cb x s in
        if b then go rest s' else (false, s')
    end.

Variable fn : Doc → St → JSValue * St.

(** The callback of [walk]:
    [fn.call(scope, entry) !== false && this.walk(entry.children, fn, scope)] *)
Fixpoint walk_entry (entry : Doc) (s : St) {struct entry} : bool * St :=
  match entry with
  | mkDoc _ _ kids =>
      let '(v, s1) := fn entry s in
      if strict_neq_false v then every walk_entry kids s1 else (false, s1)
  end.

(** [walk(children, fn, scope)] *)
Definition walk (children : list Doc) (s : St) : bool * St :=
  every walk_entry children s.

(** Visiting the documents of a list one after the other, up to and
    including the first one for which the visitor returns [false]. *)
Fixpoint visit_until_false (l : list Doc) (s : St) : bool * St :=
  match l with
  | [] => (true, s)
  | d :: rest =>
      let '(v, s1) := fn d s in
      match v with
      | JBool false => (false, s1)
      | _ => visit_until_false rest s1
      end
  end.

(** Visiting every document of a list, whatever the visitor returns. *)
Definition visit_all (l : list Doc) (s : St) : St :=
  foldl (λ s d, (fn d s).2) s l.
End Walk.

Section WalkThrowing.
(** The same functions for a visitor that can throw: the exception leaves
    [every] and every call of [walk] around it at once, with the state as
    the visitor had it when it threw. *)
Context {St : Type}.

Definition every_throwing {A : Type} (cb : A → St → (Exn + bool) * St)
  : list A → St → (Exn + bool) * St :=
  fix go (l : list A) (s : St) : (Exn + bool) * St :=
    match l with
    | [] => (inr true, s)
    | x :: rest =>
        let '(r, s') := cb x s in
        match r with
        | inr true => go rest s'
        | inr false => (inr false, s')
        | inl e => (inl e, s')
        end
    end.

Variable fn : Doc → St → (Exn + JSValue) * St.

Fixpoint walk_entry_throwing (entry : Doc) (s : St) {struct entry} : (Exn + bool) * St :=
  match entry with
  | mkDoc _ _ kids =>
      let '(r, s1) := fn entry s in
      match r with
      | inl e => (inl e, s1)
      | inr v =>
          if strict_neq_false v then every_throwing walk_entry_throwing kids s1
          else (inr false, s1)
      end
  end.

Definition walk_throwing (children : list Doc) (s : St) : (Exn + bool) * St :=
  every_throwing walk_entry_throwing children s.

(** Visiting the documents of a list one after the other, up to and
    including the first one at which the visitor throws or returns
    [false]. *)
Fixpoint visit_until_thrown (l : list Doc) (s : St) : (Exn + bool) * St :=
  match l with
  | [] => (inr true, s)
  | d :: rest =>
      let '(r, s1) := fn d s in
      match r with
      | inl e => (inl e, s1)
      | inr (JBool false) => (inr false, s1)
      | inr _ => visit_until_thrown rest s1
      end
  end.
End WalkThrowing.


(** The depth-first pre-order linearization of a forest. *)
Fixpoint preorder_doc (d : Doc) : list Doc :=
  match d with
  | mkDoc _ _ kids => d :: flat_map preorder_doc kids
  end.

Definition preorder (forest : list Doc) : list Doc := flat_map preorder_doc forest.

(** ** Index *)

Record Index : Type := mkIndex {
  index_children : list Doc;
  documentMap : gmap string (list Doc);
  documentPositions : gmap string (list nat);
  documents : list Doc
}.

#[global] Instance Index_TreeNode : TreeNode Index := {|
  children := index_children;
  set_children c this :=
    mkIndex c (documentMap this) (documentPositions this) (documents this)
|}.

(** [new treesaver.ui.Index()] *)
Definition Index_new : Index := mkIndex [] ∅ ∅ [].

(** The events [treesaver.events.fireEvent] is asked to fire on [document],
    with the payload's [index]. *)
Inductive Event : Type :=
| UPDATED (index : Index).

(** What calling [push] on a property inherited from [Object.prototype]
    throws: none of them has a [push]. *)
Definition push_is_not_a_function (receiver : string) : Exn :=
  TypeError (receiver +:+ ".push is not a function").

(** The callback of [update]; its state is [this] and the variable [index]
    of [update]. It returns nothing. [documentMap] and [documentPositions]
    are objects created by [{}]: for a url that names a property of
    [Object.prototype] the test finds that property, and the call of
    [push] throws. *)
Definition update_visit (doc : Doc) (st : Index * nat) : (Exn + JSValue) * (Index * nat) :=
  let '(this, index) := st in
  match read_property (documentMap this) (url doc) with
  | InheritedValue => (inl (push_is_not_a_function "this.documentMap[doc.url]"), st)
  | in_map =>
      let documentMap' :=
        match in_map with
        | OwnValue l => <[url doc := l ++ [doc]]> (documentMap this)
        | _ => assign_property (url doc) [doc] (documentMap this)
        end in
      let documents' := documents this ++ [doc] in
      match read_property (documentPositions this) (url doc) with
      | InheritedValue =>
          (inl (push_is_not_a_function "this.documentPositions[doc.url]"),
           (mkIndex (children this) documentMap' (documentPositions this) documents',
            index))
      | in_positions =>
          let documentPositions' :=
            match in_positions with
            | OwnValue l => <[url doc := l ++ [index]]> (documentPositions this)
            | _ => assign_property (url doc) [index] (documentPositions this)
            end in
          (inr JUndefined,
           (mkIndex (children this) documentMap' documentPositions' documents', S index))
      end
  end.

(** [Index.prototype.update]: the index as the call leaves it, and what
    the call does besides: it returns after asking for the UPDATED event,
    or throws what its callback threw, and then no event is fired. *)
Definition update (this : Index) : Index * Outcome (list Event) :=
  let index := 0%nat in
  let this := mkIndex (children this) ∅ ∅ [] in
  let '(r, (this, _)) := walk_throwing update_visit (children this) (this, index) in
  match r with
  | inl e => (this, throw e)
  | inr _ => (this, mret [UPDATED this])
  end.

(** [Index.prototype.getDocumentByIndex]: [undefined] is [None]. *)
Definition getDocumentByIndex (this : Index) (index : Z) : option Doc :=
  if index <? 0 then None else documents this !! Z.to_nat index.

(** [Index.prototype.getNumberOfDocuments] *)
Definition getNumberOfDocuments (this : Index) : Z := Z.of_nat (length (documents this)).

(** [Index.prototype.getDocuments] *)
Definition getDocuments (this : Index) : list Doc := documents this.

(** The callback of [getDocumentIndex]; its state is the variables
    [result] and [i]. *)
Definition getDocumentIndex_visit (doc d : Doc) (st : Z * Z) : JSValue * (Z * Z) :=
  let '(result, i) := st in
  let result := if equals d (inl doc) then i else result in
  (JUndefined, (result, i + 1)).

(** [Index.prototype.getDocumentIndex] *)
Definition getDocumentIndex (this : Index) (doc : Doc) : Z :=
  let result := -1 in
  let i := 0 in
  let '(_, (result, _)) := walk (getDocumentIndex_visit doc) (children this) (result, i) in
  result.

(** The callback of [get]; its state is the array [result]. *)
Definition get_visit (u : string) (doc : Doc) (result : list Doc) : JSValue * list Doc :=
  (JUndefined, if equals doc (inr u) then result ++ [doc] else result).

(** [Index.prototype.get] *)
Definition get (this : Index) (u : string) : list Doc :=
  let result := [] in
  let '(_, result) := walk (get_visit u) (children this) result in
  result.

(** ** Parsing *)

Section Parsing.
(** The collaborators of the parser, none of them in the sources:
    [treesaver.network.absoluteURL] and [treesaver.uri.stripHash], from
    url strings to url strings, and [treesaver.json.parse], which
    returns the decoded value or throws (left: the exception, as the
    text that string concatenation makes of it). *)
Variable absoluteURL : string → string.
Variable stripHash : string → string.
Variable json_parse : string → string + JSValue.

(** [treesaver.uri.stripHash(treesaver.network.absoluteURL(url))]. The
    collaborators are only specified on strings: a truthy url that is
    not a string is outside their contract. *)
Definition canonical_url (url : JSValue) : Outcome string :=
  match url with
  | JStr s => mret (stripHash (absoluteURL s))
  | _ => throw (OutOfContract "url is not a string")
  end.

(** The body of [Index.prototype.parseEntry], with [self] for
    [this.parseEntry]. *)
Definition parseEntry_body (self : JSValue → Outcome (option Doc)) (entry : JSValue)
  : Outcome (option Doc) :=
  url ← get_prop entry "url";
  children ← get_prop entry "children";
  if negb (truthy url) then
    warn "Ignored document index entry without URL";;
    mret None
  else
    url ← canonical_url url;
    keys ← Object_keys entry ();
    meta ← forEach (λ meta key, v ← get_prop entry key; mret (assign_property key v meta))
                   keys ∅;
    let doc := Document_new url meta in
    doc ← (if truthy children && isArray children then
             forEach (λ doc child, r ← self child; mret (appendChild doc r).2)
                     (elements children) doc
           else mret doc);
    mret (Some doc).

(** How deep arrays and objects nest in a value. *)
Fixpoint jdepth (v : JSValue) : nat :=
  match v with
  | JArr elems => S (foldr (λ e n, Nat.max (jdepth e) n) 0%nat elems)
  | JObj fields => S (foldr (λ kv n, Nat.max (jdepth kv.2) n) 0%nat fields)
  | _ => 0%nat
  end.

(** [parseEntry] with its recursion cut off below [n] calls. *)
Fixpoint parseEntry_upto (n : nat) (entry : JSValue) : Outcome (option Doc) :=
  match n with
  | O => throw (RangeError "Maximum call stack size exceeded")
  | S n => parseEntry_body (parseEntry_upto n) entry
  end.

(** [Index.prototype.parseEntry]: the recursion goes into the elements of
    the array [entry.children], so it is no deeper than the entry. *)
Definition parseEntry (entry : JSValue) : Outcome (option Doc) :=
  parseEntry_upto (S (jdepth entry)) entry.

(** [Index.prototype.parse] *)
Definition parse (this : Index) (index : JSValue) : Outcome (list (option Doc) * Index) :=
  if negb (truthy index) then mret ([], this)
  else
    match (match index with JStr s => json_parse s | _ => inr index end) with
    | inl e =>
        warn ("Tried to parse TOC index file, but failed: " +:+ e);;
        mret ([], this)
    | inr index =>
        if negb (isArray index) then
          warn "Document index should be an array of objects.";;
          mret ([], this)
        else
          result ← mapM parseEntry (elements index);
          let result := filter (λ entry, entry ≠ None) result in
          mret (foldl (λ '(out, this) entry,
                         let '(r, this) := appendChild this entry in
                         (out ++ [r], this))
                      ([], this) result)
    end.
End Parsing.

(** ** treesaver.array.remove *)

Section ArrayRemove.
(** An array is the list of its elements; a hole, which reads as
    [undefined], is kept as the element [undefined]. Indices and lengths
    are integers. *)
Context {A : Type} (undefined : A).

(** [a || b] on numbers, [a] possibly omitted: [0] and [undefined] are
    falsy. *)
Definition num_or (a : option Z) (b : Z) : Z :=
  match a with
  | Some x => if x =? 0 then b else x
  | None => b
  end.

(** [array.slice(start)]: a negative [start] counts from the end. *)
Definition slice_from (start : Z) (array : list A) : list A :=
  let len := Z.of_nat (length array) in
  let k := if start <? 0 then Z.max (len + start) 0 else Z.min start len in
  drop (Z.to_nat k) array.

(** [array.length = n]: truncates, or extends with holes; a length that
    is not an index throws. *)
Definition set_length (n : Z) (array : list A) : Outcome (list A) :=
  if (n <? 0) || (2 ^ 32 - 1 <? n) then throw (RangeError "Invalid array length")
  else mret (take (Z.to_nat n) array
             ++ replicate (Z.to_nat n - length array) undefined).

(** [array.push.apply(array, rest)]: the new length and the array; a new
    length above the largest array length throws, from the assignment to
    [length] that ends [push]. *)
Definition push_apply (array rest : list A) : Outcome (Z * list A) :=
  let array := array ++ rest in
  if 2 ^ 32 - 1 <? Z.of_nat (length array) then throw (RangeError "Invalid array length")
  else mret (Z.of_nat (length array), array).

(** [treesaver.array.remove(array, from, to)]: the value returned (the
    new length, from [push]) and the array after the call. *)
Definition remove (array : list A) (from : Z) (to : option Z) : Outcome (Z * list A) :=
  let len := Z.of_nat (length array) in
  let rest :=
    slice_from (let start := num_or to from + 1 in
                if start =? 0 then len else start) array in
  array ← set_length (if from <? 0 then len + from else from) array;
  push_apply array rest.
End ArrayRemove.

(** ** treesaver.ui.Settings *)

(** [this.settings] is an object created by [{}], with [Object.prototype]
    as its prototype; the record holds its own properties. *)
Record Settings : Type := mkSettings {
  settings : gmap string JSValue
}.

(** The function the constructor hands to [Object.keys]:
    [this.settings[key] = s[key]]. *)
Definition Settings_copy_key (s : JSValue) (key : string) (this : Settings)
  : Outcome Settings :=
  v ← get_prop s key;
  mret (mkSettings (assign_property key v (settings this))).

(** [new treesaver.ui.Settings(s)]: the function and [this] are the second
    and third argument of [Object.keys]. *)
Definition Settings_new (s : JSValue) : Outcome Settings :=
  let this := mkSettings ∅ in
  if truthy s then
    _ ← Object_keys s (Settings_copy_key s, this);
    mret this
  else mret this.

(** [Settings.prototype.get], for a [this.settings] on which
    [hasOwnProperty] is the method of [Object.prototype], which tests for
    an own property: settings that have no own property [hasOwnProperty]
    (a [set] of that name stores one, and the call in [get] then throws)
    and whose prototype was not replaced by a [set] of [__proto__]. *)
Definition Settings_get (this : Settings) (name : string) (defaultValue : JSValue) : JSValue :=
  match settings this !! name with
  | Some v => v
  | None => defaultValue
  end.


(** ** Sample data *)

Module Sample.
Definition leaf (u : string) : Doc := mkDoc u ∅ [].
Definition c : Doc := leaf "c".
Definition b : Doc := mkDoc "b" ∅ [c].
Definition a : Doc := mkDoc "a" ∅ [b].
Definition d : Doc := leaf "d".
Definition a2 : Doc := mkDoc "a" ∅ [d].

(** a(b(c)), d *)
Definition forest : list Doc := [a; d].
(** a(b(c)), a(d): two documents with the url "a" *)
Definition forest2 : list Doc := [a; a2].
(** a(b(c)), constructor, a(d): a url that names a property of
    Object.prototype *)
Definition forest3 : list Doc := [a; leaf "constructor"; a2].

(** A visitor that notes the urls it sees, returns [false] at [stop]
    and a falsy value that is not [false] everywhere else. *)
Definition noting (stop : string) (doc : Doc) (seen : list string) : JSValue * list string :=
  (if String.eqb (url doc) stop then JBool false
   else if String.eqb (url doc) "a" then JNum 0
   else if String.eqb (url doc) "b" then JNull
   else JUndefined,
   seen ++ [url doc]).

Definition absoluteURL (s : string) : string := "http://h" +:+ s.
Definition stripHash (s : string) : string := s.
Definition json_parse (s : string) : string + JSValue :=
  if String.eqb s "[]" then inr (JArr []) else
  if String.eqb s "{}" then inr (JObj []) else inl "SyntaxError".

Definition entryB : JSValue := JObj [("url", JStr "/b")].
Definition entryNoUrl : JSValue := JObj [("title", JStr "untitled")].
Definition entryA : JSValue :=
  JObj [("url", JStr "/a"); ("title", JStr "A");
        ("children", JArr [entryB; entryNoUrl])].
Definition entries : list JSValue := [entryA; entryNoUrl; entryB].
(** What [{"url": "/a", "__proto__": 5}] decodes to. *)
Definition entryProto : JSValue := JObj [("url", JStr "/a"); ("__proto__", JNum 5)].

(** Elements with a [NaN] among them, and [===] on them. *)
Inductive Value : Type :=
| VUndefined
| VNaN
| VNum (n : Z).

Definition strict_eq (x y : Value) : bool :=
  match x, y with
  | VUndefined, VUndefined => true
  | VNum a, VNum b => a =? b
  | _, _ => false
  end.
End Sample.

(** ** What the flat cache should hold *)

(** The documents of a list that have the url [u], in the order of the
    list. *)
Definition docs_with_url (u : string) (l : list Doc) : list Doc :=
  filter (λ d, url d = u) l.

(** The positions in a list, in increasing order, of the documents that
    have the url [u]. *)
Definition positions_with_url (u : string) (l : list Doc) : list nat :=
  (filter (λ p, url p.2 = u) (imap (λ i d, (i, d)) l)).*1.

(** An entry of [documentMap] or [documentPositions] exists once
    something was pushed to it. *)
Definition some_nonempty {A : Type} (l : list A) : option (list A) :=
  match l with [] => None | _ => Some l end.

(** A url that is not the name of a property of [Object.prototype]. *)
Definition plain_url (d : Doc) : bool := negb (inherited_name (url d)).

Definition plain_urls (l : list Doc) : bool := forallb plain_url l.

(** The documents of a list before the first one whose url names a
    property of [Object.prototype]. *)
Fixpoint before_inherited (l : list Doc) : list Doc :=
  match l with
  | [] => []
  | d :: rest => if plain_url d then d :: before_inherited rest else []
  end.

(** The state of [update] after it visited the documents [seen]. *)
Definition update_state (kids seen : list Doc) (st : Index * nat) : Prop :=
  children st.1 = kids
  ∧ documents st.1 = seen
  ∧ st.2 = length seen
  ∧ (∀ u, documentMap st.1 !! u = some_nonempty (docs_with_url u seen))
  ∧ (∀ u, documentPositions st.1 !! u = some_nonempty (positions_with_url u seen)).

(** ** What getDocumentIndex should return *)

(** [result] is the position in [l] of the last document equal to [doc],
    or [-1] when there is none. *)
Definition last_match (doc : Doc) (l : list Doc) (result : Z) : Prop :=
  (result = -1 ∧ ∀ d, d ∈ l → equals d (inl doc) = false)
  ∨ (0 ≤ result
     ∧ (∃ d, l !! Z.to_nat result = Some d ∧ equals d (inl doc) = true)
     ∧ ∀ j d', (Z.to_nat result < j)%nat → l !! j = Some d' → equals d' (inl doc) = false).

(** The state of [getDocumentIndex] after it visited the documents
    [seen]. *)
Definition getDocumentIndex_state (doc : Doc) (seen : list Doc) (st : Z * Z) : Prop :=
  st.2 = Z.of_nat (length seen) ∧ last_match doc seen st.1.

(** ** What the parser should build *)

(** The [url] field of a raw entry and the entries of its [children]
    array. *)
Definition entry_url (entry : JSValue) : JSValue :=
  match entry with JObj fields => lookup_field "url" fields | _ => JUndefined end.

Definition has_url (entry : JSValue) : bool := truthy (entry_url entry).

Definition child_entries (entry : JSValue) : list JSValue :=
  match entry with JObj fields => elements (lookup_field "children" fields) | _ => [] end.

(** A raw entry of the input format: an object whose url, when it has a
    truthy one, is a string, and whose children, when it has a truthy url
    and an array of children, are raw entries. *)
Inductive valid_entry : JSValue → Prop :=
| valid_skipped fields :
    has_url (JObj fields) = false → valid_entry (JObj fields)
| valid_document fields s :
    lookup_field "url" fields = JStr s →
    has_url (JObj fields) = true →
    Forall valid_entry (child_entries (JObj fields)) →
    valid_entry (JObj fields).

(** [meta] after the loop over [keys] that copies the fields of an entry. *)
Definition copy_fields (fields : list (string * JSValue)) (keys : list string)
    (meta : gmap string JSValue) : gmap string JSValue :=
  foldl (λ meta key, assign_property key (lookup_field key fields) meta) meta keys.

Section Built.
Variable absoluteURL : string → string.
Variable stripHash : string → string.

(** The document tree of a raw entry with a url: the canonical url, in
    [meta] a copy of every field but one named [__proto__], and one child
    for each child entry that has a url, in their order. *)
Inductive built_from : JSValue → Doc → Prop :=
| built fields s m kids :
    lookup_field "url" fields = JStr s →
    (∀ k, m !! k = if decide (k ∈ fields.*1 ∧ k ≠ "__proto__")
                   then Some (lookup_field k fields) else None) →
    Forall2 built_from (filter (λ c, has_url c) (child_entries (JObj fields))) kids →
    built_from (JObj fields) (mkDoc (stripHash (absoluteURL s)) m kids).

(** What [parseEntry] returns for an entry, and the warnings it leaves. *)
Definition entry_result (entry : JSValue) : option Doc :=
  match parseEntry absoluteURL stripHash entry with
  | Returns r _ => r
  | Throws _ _ => None
  end.

Definition entry_warnings (entry : JSValue) : list string :=
  match parseEntry absoluteURL stripHash entry with
  | Returns _ w => w
  | Throws _ w => w
  end.
End Built.

(** ** Watching a walk *)

(** The visitor [fn], made to note every document it is called on. *)
Definition traced {St : Type} (fn : Doc → St → JSValue * St)
    (d : Doc) (st : list Doc * St) : JSValue * (list Doc * St) :=
  let '(v, s) := fn d st.2 in (v, (st.1 ++ [d], s)).

(** The last position of a document with the url [u] in a list, [-1] when
    there is none. *)
Definition last_position (u : string) (l : list Doc) : Z :=
  match last (positions_with_url u l) with
  | Some p => Z.of_nat p
  | None => -1
  end.

(** ** The array functions for browsers without them (array.js, 9-107) *)

(** A loop over the indices [ixs] with a body that either returns from the
    function ([inl]) or goes on with the variables it changed ([inr]). *)
Fixpoint for_loop {I R Acc : Type} (body : I → Acc → R + Acc) (ixs : list I) (acc : Acc)
  : R + Acc :=
  match ixs with
  | [] => inr acc
  | i :: rest =>
      match body i acc with
      | inl r => inl r
      | inr acc' => for_loop body rest acc'
      end
  end.

(** [res[i] = v] on an array with holes: a write past the end extends the
    array with holes. *)
Definition array_set {B : Type} (i : nat) (v : B) (res : list (option B)) : list (option B) :=
  if decide (i < length res)%nat then <[i := Some v]> res
  else res ++ replicate (i - length res) None ++ [Some v].

Section Polyfills.
(** Here an array is the list of its slots, [None] for a hole ([i in this]
    is false). A callback gets the element, the index and the array; it
    runs against a state [St] and may change the array, so it returns its
    result with the array and the state after the call. *)
Context {A St : Type}.

(** [Array.prototype.forEach]: the array and the state after the loop. *)
Definition arrayForEach
    (fun_ : A → nat → list (option A) → St → JSValue * (list (option A) * St))
    (this : list (option A)) (s : St) : list (option A) * St :=
  let len := length this in
  match for_loop (R := Empty_set)
          (λ i '(this, s),
             match this !! i with
             | Some (Some v) => inr (fun_ v i this s).2
             | _ => inr (this, s)
             end)
          (seq 0 len) (this, s) with
  | inl r => match r with end
  | inr st => st
  end.

(** [Array.prototype.some] *)
Definition arraySome
    (fun_ : A → nat → list (option A) → St → JSValue * (list (option A) * St))
    (this : list (option A)) (s : St) : bool * (list (option A) * St) :=
  let len := length this in
  match for_loop
          (λ i '(this, s),
             match this !! i with
             | Some (Some v) =>
                 let '(r, st) := fun_ v i this s in
                 if truthy r then inl (true, st) else inr st
             | _ => inr (this, s)
             end)
          (seq 0 len) (this, s) with
  | inl r => r
  | inr st => (false, st)
  end.

(** [Array.prototype.every] *)
Definition arrayEvery
    (fun_ : A → nat → list (option A) → St → JSValue * (list (option A) * St))
    (this : list (option A)) (s : St) : bool * (list (option A) * St) :=
  let len := length this in
  match for_loop
          (λ i '(this, s),
             match this !! i with
             | Some (Some v) =>
                 let '(r, st) := fun_ v i this s in
                 if negb (truthy r) then inl (false, st) else inr st
             | _ => inr (this, s)
             end)
          (seq 0 len) (this, s) with
  | inl r => r
  | inr st => (true, st)
  end.

(** [Array.prototype.map]: the new array, then the array and the state. *)
Definition arrayMap {B : Type}
    (fun_ : A → nat → list (option A) → St → B * (list (option A) * St))
    (this : list (option A)) (s : St) : list (option B) * (list (option A) * St) :=
  let len := length this in
  let res := [] in
  match for_loop (R := Empty_set)
          (λ i '(res, (this, s)),
             match this !! i with
             | Some (Some v) =>
                 let '(r, st) := fun_ v i this s in
                 inr (array_set i r res, st)
             | _ => inr (res, (this, s))
             end)
          (seq 0 len) (res, (this, s)) with
  | inl r => match r with end
  | inr out => out
  end.

(** [Array.prototype.filter]: the element is read before the callback
    runs, and it is the element read that is pushed. *)
Definition arrayFilter
    (fun_ : A → nat → list (option A) → St → JSValue * (list (option A) * St))
    (this : list (option A)) (s : St)
  : list (option A) * (list (option A) * St) :=
  let len := length this in
  let res := [] in
  match for_loop (R := Empty_set)
          (λ i '(res, (this, s)),
             match this !! i with
             | Some (Some val) =>
                 let '(r, st) := fun_ val i this s in
                 if truthy r then inr (res ++ [Some val], st) else inr (res, st)
             | _ => inr (res, (this, s))
             end)
          (seq 0 len) (res, (this, s)) with
  | inl r => match r with end
  | inr out => out
  end.

(** [this[i]] for an integer [i]: [undefined] for a hole and outside the
    array. *)
Definition array_get (undefined : A) (this : list (option A)) (i : Z) : A :=
  if i <? 0 then undefined
  else match this !! Z.to_nat i with
       | Some (Some v) => v
       | _ => undefined
       end.

(** [Array.prototype.indexOf], [start] possibly omitted; [strict_eq] is
    what [===] is on the elements. *)
Definition indexOf (strict_eq : A → A → bool) (undefined : A)
    (this : list (option A)) (obj : A) (start : option Z) : Z :=
  let i := num_or start 0 in
  let len := Z.of_nat (length this) in
  match for_loop
          (λ i (u : unit), if strict_eq (array_get undefined this i) obj then inl i else inr u)
          (seqZ i (len - i)) tt with
  | inl i => i
  | inr _ => -1
  end.

(** [indexOf] on elements for which [===] is equality: values of one
    type that are not [NaN]. *)
Definition arrayIndexOf `{EqDecision A} (undefined : A)
    (this : list (option A)) (obj : A) (start : option Z) : Z :=
  indexOf (λ x y, bool_decide (x = y)) undefined this obj start.

(** A callback that leaves the array alone. *)
Definition keeps_array {R : Type} (cb : A → nat → St → R * St)
    (v : A) (i : nat) (this : list (option A)) (s : St) : R * (list (option A) * St) :=
  let '(r, s') := cb v i s in (r, (this, s')).

(** The elements of an array with their indices, holes left out. *)
Fixpoint entries_from (k : nat) (this : list (option A)) : list (nat * A) :=
  match this with
  | [] => []
  | Some v :: rest => (k, v) :: entries_from (S k) rest
  | None :: rest => entries_from (S k) rest
  end.

(** An array without the holes at its end. *)
Fixpoint strip_trailing_holes {B : Type} (l : list (option B)) : list (option B) :=
  match l with
  | [] => []
  | x :: rest =>
      match x, strip_trailing_holes rest with
      | None, [] => []
      | _, rest' => x :: rest'
      end
  end.

(** [some] and [every] on a list of elements with their indices. *)
Fixpoint some_of (cb : A → nat → St → JSValue * St) (es : list (nat * A)) (s : St)
  : bool * St :=
  match es with
  | [] => (false, s)
  | (i, v) :: rest =>
      let '(r, s') := cb v i s in
      if truthy r then (true, s') else some_of cb rest s'
  end.

Fixpoint every_of (cb : A → nat → St → JSValue * St) (es : list (nat * A)) (s : St)
  : bool * St :=
  match es with
  | [] => (true, s)
  | (i, v) :: rest =>
      let '(r, s') := cb v i s in
      if truthy r then every_of cb rest s' else (false, s')
  end.

(** [filter] on a list of elements with their indices. *)
Fixpoint filter_of (cb : A → nat → St → JSValue * St) (es : list (nat * A)) (s : St)
  : list A * St :=
  match es with
  | [] => ([], s)
  | (i, v) :: rest =>
      let '(r, s') := cb v i s in
      let '(kept, s'') := filter_of cb rest s' in
      (if truthy r then v :: kept else kept, s'')
  end.
End Polyfills.

(** An index that may count from the end of an array of length [len]. *)
Definition from_end (len x : Z) : Z := if x <? 0 then len + x else x.

(** * Properties *)

(** ** The code on the sample data *)

Example walk_visits_all :
  walk (Sample.noting "none") Sample.forest [] = (true, ["a"; "b"; "c"; "d"]).
Proof. reflexivity. Qed.

Example walk_stops_at_b :
  walk (Sample.noting "b") Sample.forest [] = (false, ["a"; "b"]).
Proof. reflexivity. Qed.

Example walk_stops_at_c :
  walk (Sample.noting "c") Sample.forest [] = (false, ["a"; "b"; "c"]).
Proof. reflexivity. Qed.

Example update_sample_positions :
  documentPositions (update (mkIndex Sample.forest2 ∅ ∅ [])).1 !! "a" = Some [0; 3]%nat
  ∧ documentPositions (update (mkIndex Sample.forest2 ∅ ∅ [])).1 !! "d" = Some [4]%nat
  ∧ documentPositions (update (mkIndex Sample.forest2 ∅ ∅ [])).1 !! "e" = None.
Proof. split_and!; reflexivity. Qed.

(** A url that names a property of [Object.prototype] stops [update]
    with a [TypeError]; the documents before it are cached, no event is
    fired. *)
Example update_throws_at_constructor :
  (update (mkIndex Sample.forest3 ∅ ∅ [])).2
  = Throws (TypeError "this.documentMap[doc.url].push is not a function") []
  ∧ documents (update (mkIndex Sample.forest3 ∅ ∅ [])).1 = [Sample.a; Sample.b; Sample.c]
  ∧ documentMap (update (mkIndex Sample.forest3 ∅ ∅ [])).1 !! "constructor" = None
  ∧ get (mkIndex Sample.forest3 ∅ ∅ []) "constructor" = [Sample.leaf "constructor"].
Proof. split_and!; reflexivity. Qed.

(** A field named [__proto__] does not reach [meta]. *)
Example parseEntry_sample_proto :
  match parseEntry Sample.absoluteURL Sample.stripHash Sample.entryProto with
  | Returns (Some doc) _ => (url doc, meta doc !! "url", meta doc !! "__proto__")
  | _ => ("", None, None)
  end = ("http://h/a", Some (JStr "/a"), None).
Proof. reflexivity. Qed.

Example getDocumentIndex_sample :
  getDocumentIndex (mkIndex Sample.forest2 ∅ ∅ []) (Sample.leaf "a") = 3
  ∧ getDocumentIndex (mkIndex Sample.forest2 ∅ ∅ []) (Sample.leaf "c") = 2
  ∧ getDocumentIndex (mkIndex Sample.forest2 ∅ ∅ []) (Sample.leaf "e") = -1.
Proof. split_and!; reflexivity. Qed.

Example get_sample :
  get (mkIndex Sample.forest2 ∅ ∅ []) "a" = [Sample.a; Sample.a2]
  ∧ get (mkIndex Sample.forest2 ∅ ∅ []) "missing-url" = [].
Proof. split; reflexivity. Qed.

(** Spec 8, round trip: parsing [{url: "/a", children: [{url: "/b"}]}] and
    then [update]. *)
Example parse_then_update :
  match parse Sample.absoluteURL Sample.stripHash Sample.json_parse Index_new
              (JArr [JObj [("url", JStr "/a"); ("children", JArr [Sample.entryB])]]) with
  | Returns (_, this) _ =>
      let this := (update this).1 in
      (url <$> documents this,
       documentPositions this !! "http://h/a",
       documentPositions this !! "http://h/b")
  | Throws _ _ => ([], None, None)
  end = (["http://h/a"; "http://h/b"], Some [0%nat], Some [1%nat]).
Proof. reflexivity. Qed.

Example parse_skips_entries_without_url :
  match parse Sample.absoluteURL Sample.stripHash Sample.json_parse Index_new
              (JArr Sample.entries) with
  | Returns (out, this) w => (length out, url <$> children this, length w)
  | Throws _ _ => (0%nat, [], 0%nat)
  end = (2%nat, ["http://h/a"; "http://h/b"], 2%nat).
Proof. reflexivity. Qed.

Example parse_null_entry_throws :
  parse Sample.absoluteURL Sample.stripHash Sample.json_parse Index_new
        (JArr [Sample.entryNoUrl; JNull; Sample.entryB])
  = Throws (TypeError "Cannot read property of null or undefined")
           ["Ignored document index entry without URL"].
Proof. reflexivity. Qed.

Example remove_samples :
  remove 0 [1; 2; 3; 4; 5] 1 (Some 3) = Returns (2, [1; 5]) []
  ∧ remove 0 [1; 2; 3; 4; 5] 0 None = Returns (4, [2; 3; 4; 5]) []
  ∧ remove 0 [1; 2; 3; 4; 5] (-1) None = Returns (4, [1; 2; 3; 4]) []
  ∧ remove 0 [1; 2; 3; 4; 5] 1 (Some (-2)) = Returns (2, [1; 5]) []
  ∧ remove 0 [1; 2; 3; 4; 5] 7 None = Returns (7, [1; 2; 3; 4; 5; 0; 0]) [].
Proof. split_and!; reflexivity. Qed.

Example Settings_sample :
  Settings_new (JObj [("theme", JStr "dark")]) = Returns (mkSettings ∅) []
  ∧ Settings_new (JNum 5) = Throws (TypeError "Object.keys called on non-object") [].
Proof. split; reflexivity. Qed.

(** Induction on a document with the hypothesis for every child. *)
Lemma Doc_tree_ind (P : Doc → Prop) :
  (∀ u m kids, Forall P kids → P (mkDoc u m kids)) → ∀ d, P d.
Proof.
  intros step. fix rec 1. intros [u m kids]. apply step.
  induction kids as [|k kids IH]; constructor; [apply rec | exact IH].
Qed.

(** ** Properties of walk *)

Section WalkFacts.
Context {St : Type} (fn : Doc → St → JSValue * St).

Lemma walk_unfold (l : list Doc) (s : St) :
  walk fn l s =
  every (λ entry s,
           let '(v, s1) := fn entry s in
           if strict_neq_false v then walk fn (children entry) s1 else (false, s1))
        l s.
Proof.
  unfold walk. revert s. induction l as [|[u m kids] l IH]; intros s; [done|].
  simpl. destruct (fn (mkDoc u m kids) s) as [v s1].
  destruct (strict_neq_false v); [|done].
  destruct (every (walk_entry fn) kids s1) as [[] s2]; [apply IH|done].
Qed.

Lemma visit_until_false_app (l1 l2 : list Doc) (s : St) :
  visit_until_false fn (l1 ++ l2) s =
  let '(b, s1) := visit_until_false fn l1 s in
  if b then visit_until_false fn l2 s1 else (false, s1).
Proof.
  revert s. induction l1 as [|d l1 IH]; intros s; simpl; [done|].
  destruct (fn d s) as [v s1]. destruct v as [| |[]| | | |]; auto.
Qed.

Lemma walk_entry_preorder (d : Doc) :
  ∀ s, walk_entry fn d s = visit_until_false fn (preorder_doc d) s.
Proof.
  induction d as [u m kids IH] using Doc_tree_ind. intros s. simpl.
  destruct (fn (mkDoc u m kids) s) as [v s1].
  assert (Hkids : ∀ s, every (walk_entry fn) kids s =
                       visit_until_false fn (flat_map preorder_doc kids) s).
  { clear s s1 v. induction IH as [|k kids Hk _ IHkids]; intros s; simpl; [done|].
    rewrite visit_until_false_app, <- Hk.
    destruct (walk_entry fn k s) as [[] s2]; [apply IHkids|done]. }
  destruct v as [| |[]| | | |]; simpl; auto.
Qed.

Lemma walk_preorder (l : list Doc) (s : St) :
  walk fn l s = visit_until_false fn (preorder l) s.
Proof.
  unfold walk, preorder. revert s. induction l as [|d l IH]; intros s; simpl; [done|].
  rewrite visit_until_false_app, <- walk_entry_preorder.
  destruct (walk_entry fn d s) as [[] s1]; [apply IH|done].
Qed.

Lemma visit_never_false (l : list Doc) (s : St) :
  (∀ d s, (fn d s).1 ≠ JBool false) →
  visit_until_false fn l s = (true, visit_all fn l s).
Proof.
  intros Hfn. revert s. induction l as [|d l IH]; intros s; simpl; [done|].
  specialize (Hfn d s). unfold visit_all in IH. destruct (fn d s) as [v s1]; simpl in *.
  destruct v as [| |[]| | | |]; auto. done.
Qed.

Lemma visit_all_app (l1 l2 : list Doc) (s : St) :
  visit_all fn (l1 ++ l2) s = visit_all fn l2 (visit_all fn l1 s).
Proof. unfold visit_all. apply foldl_app. Qed.
End WalkFacts.

Section WalkThrowingFacts.
Context {St : Type} (fn : Doc → St → (Exn + JSValue) * St).

Lemma visit_until_thrown_app (l1 l2 : list Doc) (s : St) :
  visit_until_thrown fn (l1 ++ l2) s =
  let '(r, s1) := visit_until_thrown fn l1 s in
  match r with
  | inr true => visit_until_thrown fn l2 s1
  | _ => (r, s1)
  end.
Proof.
  revert s. induction l1 as [|d l1 IH]; intros s; simpl; [done|].
  destruct (fn d s) as [[e|v] s1]; [done|]. destruct v as [| |[]| | | |]; auto.
Qed.

Lemma walk_entry_throwing_preorder (d : Doc) :
  ∀ s, walk_entry_throwing fn d s = visit_until_thrown fn (preorder_doc d) s.
Proof.
  induction d as [u m kids IH] using Doc_tree_ind. intros s. simpl.
  destruct (fn (mkDoc u m kids) s) as [[e|v] s1]; [done|].
  assert (Hkids : ∀ s, every_throwing (walk_entry_throwing fn) kids s =
                       visit_until_thrown fn (flat_map preorder_doc kids) s).
  { clear s s1 v. induction IH as [|k kids Hk _ IHkids]; intros s; simpl; [done|].
    rewrite visit_until_thrown_app, <- Hk.
    destruct (walk_entry_throwing fn k s) as [[e|[]] s2]; [done|apply IHkids|done]. }
  destruct v as [| |[]| | | |]; simpl; auto.
Qed.

Lemma walk_throwing_preorder (l : list Doc) (s : St) :
  walk_throwing fn l s = visit_until_thrown fn (preorder l) s.
Proof.
  unfold walk_throwing, preorder. revert s.
  induction l as [|d l IH]; intros s; simpl; [done|].
  rewrite visit_until_thrown_app, <- walk_entry_throwing_preorder.
  destruct (walk_entry_throwing fn d s) as [[e|[]] s1]; [done|apply IH|done].
Qed.
End WalkThrowingFacts.

(** With a visitor that never throws, [walk_throwing] is [walk]. *)
Lemma walk_throwing_never_thrown {St : Type} (fn : Doc → St → JSValue * St)
    (l : list Doc) (s : St) :
  walk_throwing (λ d s, let '(v, s1) := fn d s in (inr v, s1)) l s
  = let '(b, s1) := walk fn l s in (inr b, s1).
Proof.
  rewrite walk_throwing_preorder, walk_preorder. revert s.
  induction (preorder l) as [|d flat IH]; intros s; simpl; [done|].
  destruct (fn d s) as [v s1]. destruct v as [| |[]| | | |]; auto.
Qed.

Lemma preorder_cons (d : Doc) (forest : list Doc) :
  preorder (d :: forest) = d :: preorder (children d ++ forest).
Proof. unfold preorder. destruct d as [u m kids]. simpl. by rewrite flat_map_app. Qed.

(** C1. [walk] is the depth-first pre-order traversal cut at the first
    document for which the visitor returns exactly [false]: (1) it calls
    the visitor on the documents of the pre-order linearization one after
    the other and stops for good at the first [false]; (2) when the visitor
    returns [false] at a document, the walk returns [false] with the state
    the visitor left at that very call, so nothing after it (children,
    siblings, siblings of ancestors) is visited; (3) a visitor that returns
    anything else, falsy values included, is run on every document;
    (4) and (5) say the same one step at a time: on [false] at the first
    document the walk is over, on any other value it goes on with the
    children of that document and then with its siblings. *)
Theorem walk_aborts_exactly_on_false {St : Type}
    (fn : Doc → St → JSValue * St) (forest : list Doc) (s : St) :
  walk fn forest s = visit_until_false fn (preorder forest) s
  ∧ (∀ pre d post s1,
       preorder forest = pre ++ d :: post →
       visit_until_false fn pre s = (true, s1) →
       (fn d s1).1 = JBool false →
       walk fn forest s = (false, (fn d s1).2))
  ∧ ((∀ d s, (fn d s).1 ≠ JBool false) →
       walk fn forest s = (true, visit_all fn (preorder forest) s))
  ∧ (∀ d, (fn d s).1 = JBool false →
       walk fn (d :: forest) s = (false, (fn d s).2))
  ∧ (∀ d, (fn d s).1 ≠ JBool false →
       walk fn (d :: forest) s = walk fn (children d ++ forest) (fn d s).2).
Proof.
  split_and!.
  - apply walk_preorder.
  - intros pre d post s1 Hpre Hrun Hfalse.
    rewrite walk_preorder, Hpre, visit_until_false_app, Hrun. simpl.
    destruct (fn d s1) as [v s2]. simpl in Hfalse. by subst v.
  - intros Hfn. rewrite walk_preorder. by apply visit_never_false.
  - intros d Hfalse. rewrite walk_preorder, preorder_cons. simpl.
    destruct (fn d s) as [v s1]. simpl in Hfalse. by subst v.
  - intros d Hother. rewrite !walk_preorder, preorder_cons. simpl.
    destruct (fn d s) as [v s1]. simpl in *. by destruct v as [| |[]| | | |].
Qed.

Lemma walk_aborts_exactly_on_false_witness :
  walk (Sample.noting "b") Sample.forest [] = (false, ["a"; "b"])
  ∧ walk (λ d seen, (JNum 0, seen ++ [url d])) Sample.forest []
    = (true, ["a"; "b"; "c"; "d"]).
Proof.
  split.
  - apply (proj1 (proj2 (walk_aborts_exactly_on_false
                           (Sample.noting "b") Sample.forest []))
             [Sample.a] Sample.b [Sample.c; Sample.d] ["a"]); reflexivity.
  - apply (proj2 (proj2 (walk_aborts_exactly_on_false
                           (λ d seen, (JNum 0, seen ++ [url d])) Sample.forest []))).
    intros d s. simpl. discriminate.
Defined.

(** ** Properties of update *)

Lemma docs_with_url_snoc (u : string) (p : list Doc) (d : Doc) :
  docs_with_url u (p ++ [d]) =
  docs_with_url u p ++ (if decide (url d = u) then [d] else []).
Proof.
  unfold docs_with_url. by rewrite filter_app.
Qed.

Lemma positions_with_url_snoc (u : string) (p : list Doc) (d : Doc) :
  positions_with_url u (p ++ [d]) =
  positions_with_url u p ++ (if decide (url d = u) then [length p] else []).
Proof.
  unfold positions_with_url. rewrite imap_app, filter_app, fmap_app. f_equal.
  simpl. rewrite filter_cons, filter_nil. simpl.
  case_decide; simpl; [|done]. by rewrite Nat.add_0_r.
Qed.

Lemma some_nonempty_snoc {A : Type} (l : list A) (x : A) :
  some_nonempty (l ++ [x]) = Some (l ++ [x]).
Proof. by destruct l. Qed.

Lemma some_nonempty_Some {A : Type} (l l' : list A) :
  some_nonempty l = Some l' → l' = l.
Proof. destruct l; simpl; congruence. Qed.

Lemma some_nonempty_None {A : Type} (l : list A) :
  some_nonempty l = None → l = [].
Proof. by destruct l. Qed.

Lemma assign_property_insert {V : Type} (k : string) (v : V) (own : gmap string V) :
  k ≠ "__proto__" → assign_property k v own = <[k := v]> own.
Proof.
  intros Hk%String.eqb_neq. unfold assign_property. rewrite Hk.
  by destruct (own !! k).
Qed.

Lemma assign_property_proto {V : Type} (v : V) (own : gmap string V) :
  own !! "__proto__" = None → assign_property "__proto__" v own = own.
Proof. intros Hown. unfold assign_property. by rewrite Hown. Qed.

Lemma assign_property_no_proto {V : Type} (k : string) (v : V) (own : gmap string V) :
  own !! "__proto__" = None → assign_property k v own !! "__proto__" = None.
Proof.
  intros Hown. destruct (decide (k = "__proto__")) as [->|Hk].
  - by rewrite assign_property_proto.
  - by rewrite assign_property_insert, lookup_insert_ne.
Qed.

Lemma plain_name_not_proto (u : string) :
  inherited_name u = false → u ≠ "__proto__".
Proof. intros Hu ->. by vm_compute in Hu. Qed.

Lemma update_visit_not_false (d : Doc) (st : Index * nat) :
  (update_visit d st).1 ≠ inr (JBool false).
Proof.
  destruct st as [this index]. unfold update_visit.
  destruct (read_property (documentMap this) (url d));
    destruct (read_property (documentPositions this) (url d)); done.
Qed.

Lemma plain_urls_app (l1 l2 : list Doc) :
  plain_urls (l1 ++ l2) = plain_urls l1 && plain_urls l2.
Proof. apply forallb_app. Qed.

Lemma before_inherited_plain (l : list Doc) :
  plain_urls l = true → before_inherited l = l.
Proof.
  induction l as [|d l IH]; simpl; [done|].
  intros [-> Hl]%andb_true_iff. by rewrite IH.
Qed.

Lemma before_inherited_is_plain (l : list Doc) :
  plain_urls (before_inherited l) = true.
Proof.
  induction l as [|d l IH]; simpl; [done|].
  destruct (plain_url d) eqn:Hd; simpl; [by rewrite Hd|done].
Qed.

Lemma before_inherited_prefix (l : list Doc) :
  before_inherited l `prefix_of` l.
Proof.
  induction l as [|d l IH]; simpl; [done|].
  destruct (plain_url d); [by apply prefix_cons|apply prefix_nil].
Qed.

Lemma before_inherited_shorter (l : list Doc) :
  plain_urls l = false → (length (before_inherited l) < length l)%nat.
Proof.
  induction l as [|d l IH]; simpl; [done|].
  destruct (plain_url d); simpl; [|lia]. intros Hl. specialize (IH Hl). lia.
Qed.

(** No document with a plain url has the url [u] of a property of
    [Object.prototype]. *)
Lemma plain_urls_no_docs (u : string) (seen : list Doc) :
  plain_urls seen = true → inherited_name u = true → docs_with_url u seen = [].
Proof.
  intros Hseen Hu. unfold docs_with_url.
  induction seen as [|d seen IH]; [done|]. simpl in Hseen.
  apply andb_true_iff in Hseen as [Hd Hseen]. rewrite filter_cons, IH by done.
  case_decide as Heq; [|done]. unfold plain_url in Hd. by rewrite Heq, Hu in Hd.
Qed.

(** At a document with a plain url the callback returns nothing and
    records the document. *)
Lemma update_visit_plain (kids seen : list Doc) (d : Doc) (st : Index * nat) :
  update_state kids seen st → plain_url d = true →
  (update_visit d st).1 = inr JUndefined
  ∧ update_state kids (seen ++ [d]) (update_visit d st).2.
Proof.
  destruct st as [this index]. intros (Hkids & Hdocs & Hindex & Hmap & Hpos) Hd.
  apply negb_true_iff in Hd. pose proof (plain_name_not_proto _ Hd) as Hproto.
  simpl in *. unfold read_property.
  rewrite !assign_property_insert, Hd, (Hmap (url d)), (Hpos (url d)) by done.
  assert (Hstate : update_state kids (seen ++ [d])
            (mkIndex (children this)
               (<[url d := docs_with_url (url d) seen ++ [d]]> (documentMap this))
               (<[url d := positions_with_url (url d) seen ++ [index]]>
                  (documentPositions this))
               (documents this ++ [d]), S index)).
  { split_and!; simpl.
    - done.
    - by rewrite Hdocs.
    - rewrite length_app. simpl. lia.
    - intros u. rewrite docs_with_url_snoc.
      destruct (decide (url d = u)) as [->|Hne].
      + by rewrite some_nonempty_snoc, lookup_insert_eq.
      + by rewrite app_nil_r, lookup_insert_ne.
    - intros u. rewrite positions_with_url_snoc.
      destruct (decide (url d = u)) as [->|Hne].
      + by rewrite some_nonempty_snoc, lookup_insert_eq, Hindex.
      + by rewrite app_nil_r, lookup_insert_ne. }
  destruct (docs_with_url (url d) seen) as [|d0 ds] eqn:Hds;
    destruct (positions_with_url (url d) seen) as [|p0 ps] eqn:Hps; simpl;
    (split; [done|exact Hstate]).
Qed.

(** At the first document whose url names a property of
    [Object.prototype] the callback throws and records nothing. *)
Lemma update_visit_inherited (kids seen : list Doc) (d : Doc) (st : Index * nat) :
  update_state kids seen st → plain_urls seen = true → plain_url d = false →
  update_visit d st = (inl (push_is_not_a_function "this.documentMap[doc.url]"), st).
Proof.
  destruct st as [this index]. intros (_ & _ & _ & Hmap & _) Hseen Hd.
  apply negb_false_iff in Hd. simpl in *. unfold read_property.
  by rewrite (Hmap (url d)), (plain_urls_no_docs _ _ Hseen Hd), Hd.
Qed.

Lemma update_visit_run (kids l seen : list Doc) (st : Index * nat) :
  update_state kids seen st → plain_urls seen = true →
  ∃ st', visit_until_thrown update_visit l st
         = (if plain_urls l then inr true
            else inl (push_is_not_a_function "this.documentMap[doc.url]"), st')
         ∧ update_state kids (seen ++ before_inherited l) st'.
Proof.
  revert seen st. induction l as [|d l IH]; intros seen st Hst Hseen; simpl.
  { exists st. by rewrite app_nil_r. }
  destruct (plain_url d) eqn:Hd; simpl.
  - destruct (update_visit_plain kids seen d st Hst Hd) as [Hret Hst'].
    destruct (update_visit d st) as [r st1]. simpl in Hret, Hst'. subst r.
    destruct (IH (seen ++ [d]) st1 Hst') as (st' & Hrun & Hst'').
    { by rewrite plain_urls_app, Hseen; simpl; rewrite Hd. }
    exists st'. by rewrite <- app_assoc in Hst''.
  - rewrite (update_visit_inherited kids seen d st Hst Hseen Hd).
    exists st. by rewrite app_nil_r.
Qed.

(** What [update] leaves and does, for every index. *)
Lemma update_state_after (this : Index) :
  update_state (children this) (before_inherited (preorder (children this)))
    ((update this).1, length (before_inherited (preorder (children this))))
  ∧ (update this).2
    = if plain_urls (preorder (children this))
      then Returns [UPDATED (update this).1] []
      else Throws (push_is_not_a_function "this.documentMap[doc.url]") [].
Proof.
  unfold update.
  destruct (update_visit_run (children this) (preorder (children this)) []
              (mkIndex (children this) ∅ ∅ [], 0%nat)) as ([this' n] & Hrun & Hst).
  { repeat split; simpl; intros; by rewrite ?lookup_empty. }
  { done. }
  change (children (mkIndex (children this) ∅ ∅ [])) with (children this).
  rewrite walk_throwing_preorder, Hrun.
  simpl in Hst. destruct Hst as (? & ? & Hn & ? & ?). simpl in Hn. subst n.
  by destruct (plain_urls _).
Qed.

(** Where a document sits in the flat list, its position and the document
    sit at one and the same rank of the two per-url lists. *)
Lemma positions_align (l : list Doc) (i : nat) (d : Doc) :
  l !! i = Some d →
  ∃ k, positions_with_url (url d) l !! k = Some i
       ∧ docs_with_url (url d) l !! k = Some d.
Proof.
  intros Hi. unfold positions_with_url, docs_with_url.
  assert (Hsnd : ∀ (l : list Doc) (f : nat → nat),
             (filter (λ p : nat * Doc, url p.2 = url d) (imap (λ i d, (f i, d)) l)).*2
             = filter (λ d', url d' = url d) l).
  { clear. intros l. induction l as [|x l IH]; intros f; [done|].
    simpl. rewrite !filter_cons. simpl.
    specialize (IH (f ∘ S)). simpl in IH.
    case_decide; simpl; by rewrite <- IH. }
  specialize (Hsnd l id). simpl in Hsnd.
  assert (Hin : (i, d) ∈ filter (λ p : nat * Doc, url p.2 = url d) (imap (λ i d, (i, d)) l)).
  { apply list_elem_of_filter. split; [done|].
    apply list_elem_of_lookup. exists i. by rewrite list_lookup_imap, Hi. }
  apply list_elem_of_lookup in Hin as [k Hk]. exists k. split.
  - by rewrite list_lookup_fmap, Hk.
  - by rewrite <- Hsnd, list_lookup_fmap, Hk.
Qed.

Lemma positions_increasing (u : string) (l : list Doc) :
  StronglySorted lt (positions_with_url u l).
Proof.
  unfold positions_with_url.
  assert (Hgen : ∀ (l : list Doc) (f : nat → nat),
             (∀ i j, (i < j)%nat → (f i < f j)%nat) →
             StronglySorted lt
               (filter (λ p : nat * Doc, url p.2 = u) (imap (λ i d, (f i, d)) l)).*1
             ∧ Forall (λ x, ∃ i, x = f i)
               (filter (λ p : nat * Doc, url p.2 = u) (imap (λ i d, (f i, d)) l)).*1).
  { clear. intros l. induction l as [|x l IH]; intros f Hf.
    { split; constructor. }
    simpl. rewrite filter_cons. simpl.
    destruct (IH (f ∘ S)) as [Hsorted Hrange].
    { intros i j Hij. simpl. apply Hf. lia. }
    simpl in *. case_decide; simpl.
    - split.
      + constructor; [done|].
        eapply Forall_impl; [exact Hrange|]. intros y [i ->]. apply Hf. lia.
      + constructor; [by exists 0%nat|].
        eapply Forall_impl; [exact Hrange|]. intros y [i ->]. by exists (S i).
    - split; [done|].
      eapply Forall_impl; [exact Hrange|]. intros y [i ->]. by exists (S i). }
  apply (Hgen l id). auto.
Qed.

(** C2. [update] never touches the tree, its visitor never returns
    [false], and it returns exactly when no url in the tree names a
    property of [Object.prototype]. After it returned: one UPDATED event with the index is fired; [documents] is
    the depth-first pre-order linearization of the tree; [documentMap]
    holds, for every url, the documents with that url in traversal order
    (and no entry for a url that does not occur); [documentPositions]
    holds their flat positions, in increasing order; a document at flat
    position [i] has [i] among the positions of its url and itself among
    the documents of its url, at the same rank. Otherwise it throws a
    [TypeError] at the first document with such a url, fires nothing, and
    leaves the caches as they were before that document. In both cases
    the result does not depend on what the caches held before. *)
Theorem update_rebuilds_flat_cache (this : Index) :
  let this' := (update this).1 in
  let flat := preorder (children this) in
  children this' = children this
  ∧ (∀ d st, (update_visit d st).1 ≠ inr (JBool false))
  ∧ ((∃ events w, (update this).2 = Returns events w) ↔ plain_urls flat = true)
  ∧ (∀ events w, (update this).2 = Returns events w →
       events = [UPDATED this'] ∧ w = []
       ∧ documents this' = flat
       ∧ (∀ u, documentMap this' !! u = some_nonempty (docs_with_url u flat))
       ∧ (∀ u, documentPositions this' !! u = some_nonempty (positions_with_url u flat))
       ∧ (∀ u ps, documentPositions this' !! u = Some ps → StronglySorted lt ps)
       ∧ (∀ i d, documents this' !! i = Some d →
            ∃ ps ds k, documentPositions this' !! url d = Some ps
                       ∧ documentMap this' !! url d = Some ds
                       ∧ i ∈ ps ∧ d ∈ ds
                       ∧ ps !! k = Some i ∧ ds !! k = Some d))
  ∧ (plain_urls flat = false →
       (update this).2 = Throws (push_is_not_a_function "this.documentMap[doc.url]") []
       ∧ documents this' = before_inherited flat
       ∧ (∀ u, documentMap this' !! u
               = some_nonempty (docs_with_url u (before_inherited flat)))
       ∧ (∀ u, documentPositions this' !! u
               = some_nonempty (positions_with_url u (before_inherited flat))))
  ∧ (∀ other, children other = children this → update other = update this).
Proof.
  intros this' flat. subst this' flat.
  destruct (update_state_after this) as ((Hkids & Hdocs & _ & Hmap & Hpos) & Hout).
  cbn [fst snd] in Hkids, Hdocs, Hmap, Hpos.
  set (flat := preorder (children this)) in *. set (this' := (update this).1) in *.
  split_and!.
  - done.
  - apply update_visit_not_false.
  - rewrite Hout. destruct (plain_urls flat); split; try done.
    + by eexists _, _.
    + by intros (? & ? & ?).
  - intros events w Hret. rewrite Hout in Hret.
    destruct (plain_urls flat) eqn:Hplain; [|done]. injection Hret as <- <-.
    rewrite (before_inherited_plain flat Hplain) in Hdocs, Hmap, Hpos.
    split_and!; try done.
    + intros u ps Hps. rewrite Hpos in Hps. apply some_nonempty_Some in Hps as ->.
      apply positions_increasing.
    + intros i d Hi. rewrite Hdocs in Hi.
      destruct (positions_align _ i d Hi) as (k & Hk1 & Hk2).
      eexists _, _, k. rewrite Hpos, Hmap.
      split_and!; [| |by eapply list_elem_of_lookup_2.. |exact Hk1|exact Hk2].
      * by destruct (positions_with_url _ _).
      * by destruct (docs_with_url _ _).
  - intros Hplain. by rewrite Hout, Hplain.
  - intros other Hsame. unfold update. by rewrite Hsame.
Qed.

Lemma update_rebuilds_flat_cache_witness :
  (update (mkIndex Sample.forest2 ∅ ∅ [Sample.c])).2
  = Returns [UPDATED (update (mkIndex Sample.forest2 ∅ ∅ [Sample.c])).1] []
  ∧ documents (update (mkIndex Sample.forest2 ∅ ∅ [Sample.c])).1
    = [Sample.a; Sample.b; Sample.c; Sample.a2; Sample.d]
  ∧ (∃ ps ds k,
      documentPositions (update (mkIndex Sample.forest2 ∅ ∅ [Sample.c])).1 !! "a" = Some ps
      ∧ documentMap (update (mkIndex Sample.forest2 ∅ ∅ [Sample.c])).1 !! "a" = Some ds
      ∧ 3%nat ∈ ps ∧ Sample.a2 ∈ ds ∧ ps !! k = Some 3%nat ∧ ds !! k = Some Sample.a2)
  ∧ plain_urls (preorder Sample.forest3) = false
  ∧ documents (update (mkIndex Sample.forest3 ∅ ∅ [Sample.c])).1
    = [Sample.a; Sample.b; Sample.c].
Proof.
  destruct (update_rebuilds_flat_cache (mkIndex Sample.forest2 ∅ ∅ [Sample.c]))
    as (_ & _ & _ & Hret & _).
  destruct (Hret [UPDATED (update (mkIndex Sample.forest2 ∅ ∅ [Sample.c])).1] []
              eq_refl) as (_ & _ & Hdocs & _ & _ & _ & Hat).
  destruct (update_rebuilds_flat_cache (mkIndex Sample.forest3 ∅ ∅ [Sample.c]))
    as (_ & _ & _ & _ & Hthrown & _).
  destruct (Hthrown eq_refl) as (_ & Hshort & _).
  split_and!; [reflexivity|exact Hdocs| |reflexivity|by rewrite Hshort].
  apply (Hat 3%nat Sample.a2). rewrite Hdocs. reflexivity.
Defined.

(** ** Properties of getDocumentIndex *)

#[local] Arguments equals : simpl never.

Lemma getDocumentIndex_visit_not_false (doc d : Doc) (st : Z * Z) :
  (getDocumentIndex_visit doc d st).1 ≠ JBool false.
Proof. by destruct st. Qed.

Lemma getDocumentIndex_visit_step (doc : Doc) (seen : list Doc) (d : Doc) (st : Z * Z) :
  getDocumentIndex_state doc seen st →
  getDocumentIndex_state doc (seen ++ [d]) (getDocumentIndex_visit doc d st).2.
Proof.
  destruct st as [result i]. intros [Hi Hlast]. simpl in *. subst i.
  split; simpl; [rewrite length_app; simpl; lia|].
  destruct (equals d (inl doc)) eqn:Heq.
  - right. rewrite Nat2Z.id. split; [lia|]. split.
    + exists d. by rewrite list_lookup_middle.
    + intros j d' Hj Hlook. apply lookup_lt_Some in Hlook.
      rewrite length_app in Hlook. simpl in Hlook. lia.
  - destruct Hlast as [[-> Hnone]|(Hpos & (d0 & Hd0 & Heq0) & Hlater)].
    + left. split; [done|]. intros d' [Hin|Hin]%elem_of_app; [by apply Hnone|].
      apply list_elem_of_singleton in Hin. by subst.
    + right. split; [done|]. split.
      * exists d0. split; [|done]. by apply lookup_app_l_Some.
      * intros j d' Hj Hlook. apply lookup_app_Some in Hlook as [Hl|[_ Hr]].
        -- by eapply Hlater.
        -- apply list_lookup_singleton_Some in Hr as [_ <-]. done.
Qed.

Lemma getDocumentIndex_visit_all (doc : Doc) (seen l : list Doc) (st : Z * Z) :
  getDocumentIndex_state doc seen st →
  getDocumentIndex_state doc (seen ++ l) (visit_all (getDocumentIndex_visit doc) l st).
Proof.
  revert seen st. induction l as [|d l IH]; intros seen st Hst.
  - by rewrite app_nil_r.
  - change (d :: l) with ([d] ++ l). rewrite visit_all_app, app_assoc.
    apply IH. by apply getDocumentIndex_visit_step.
Qed.

Lemma getDocumentIndex_last_match (this : Index) (doc : Doc) :
  last_match doc (preorder (children this)) (getDocumentIndex this doc).
Proof.
  unfold getDocumentIndex.
  rewrite walk_preorder, visit_never_false by apply getDocumentIndex_visit_not_false.
  pose proof (getDocumentIndex_visit_all doc [] (preorder (children this)) (-1, 0)) as H.
  destruct (visit_all _ _ _) as [result i]. apply H.
  split; [done|]. left. split; [done|]. intros d Hd. by apply elem_of_nil in Hd.
Qed.

(** C3. [getDocumentIndex] reads the tree itself, not the cache, and
    returns the pre-order position of the last document that equals [doc]
    ([-1] when none does); with two documents of the url of [doc] in the
    tree, the result is at least the position of the later one. *)
Theorem getDocumentIndex_last_wins (this : Index) (doc : Doc) :
  let flat := preorder (children this) in
  let result := getDocumentIndex this doc in
  ((result = -1 ∧ ∀ d, d ∈ flat → equals d (inl doc) = false)
   ∨ (0 ≤ result
      ∧ (∃ d, flat !! Z.to_nat result = Some d ∧ equals d (inl doc) = true)
      ∧ ∀ j d', (Z.to_nat result < j)%nat → flat !! j = Some d' →
                equals d' (inl doc) = false))
  ∧ (∀ i j d1 d2, (i < j)%nat → flat !! i = Some d1 → flat !! j = Some d2 →
       url d1 = url doc → url d2 = url doc →
       Z.of_nat i < result ∧ Z.of_nat j ≤ result)
  ∧ (∀ other, children other = children this →
       getDocumentIndex other doc = getDocumentIndex this doc).
Proof.
  intros flat result. pose proof (getDocumentIndex_last_match this doc) as Hlast.
  fold flat result in Hlast. split; [exact Hlast|]. split.
  - intros i j d1 d2 Hij _ Hj _ Hurl.
    assert (Heq : equals d2 (inl doc) = true).
    { unfold equals. rewrite Hurl. apply String.eqb_refl. }
    destruct Hlast as [[_ Hnone]|(Hpos & _ & Hlater)].
    + rewrite Hnone in Heq; [done|]. by eapply list_elem_of_lookup_2.
    + destruct (decide (Z.to_nat result < j)%nat) as [Hlt|Hge].
      * by rewrite (Hlater j d2 Hlt Hj) in Heq.
      * lia.
  - intros other Hsame. unfold getDocumentIndex. by rewrite Hsame.
Qed.

Lemma getDocumentIndex_last_wins_witness :
  getDocumentIndex (mkIndex Sample.forest2 ∅ ∅ []) (Sample.leaf "a") = 3
  ∧ 0 < getDocumentIndex (mkIndex Sample.forest2 ∅ ∅ []) (Sample.leaf "a").
Proof.
  split; [reflexivity|].
  apply (proj1 (proj2 (getDocumentIndex_last_wins
                         (mkIndex Sample.forest2 ∅ ∅ []) (Sample.leaf "a")))
           0%nat 3%nat Sample.a Sample.a2); [lia|reflexivity..].
Defined.

(** ** Properties of get *)

Lemma get_visit_not_false (u : string) (d : Doc) (result : list Doc) :
  (get_visit u d result).1 ≠ JBool false.
Proof. done. Qed.

Lemma get_visit_all (u : string) (l result : list Doc) :
  visit_all (get_visit u) l result = result ++ filter (λ d, equals d (inr u)) l.
Proof.
  revert result. induction l as [|d l IH]; intros result.
  - by rewrite app_nil_r.
  - change (d :: l) with ([d] ++ l) at 1. rewrite visit_all_app, IH.
    rewrite filter_cons. unfold visit_all. simpl.
    destruct (equals d (inr u)); simpl; [by rewrite <- app_assoc|done].
Qed.

(** C6. [get] reads the tree itself, not the cache, and returns the
    documents of the tree that equal [url], in depth-first pre-order; the
    result is an array in every case, the empty one when nothing matches. *)
Theorem get_collects_matches (this : Index) (u : string) :
  get this u = filter (λ d, equals d (inr u)) (preorder (children this))
  ∧ (∀ d, d ∈ get this u ↔ d ∈ preorder (children this) ∧ url d = u)
  ∧ ((∀ d, d ∈ preorder (children this) → url d ≠ u) → get this u = [])
  ∧ (∀ other, children other = children this → get other u = get this u).
Proof.
  assert (Hget : get this u = filter (λ d, equals d (inr u)) (preorder (children this))).
  { unfold get. rewrite walk_preorder, visit_never_false by apply get_visit_not_false.
    by rewrite get_visit_all. }
  assert (Hin : ∀ d, d ∈ get this u ↔ d ∈ preorder (children this) ∧ url d = u).
  { intros d. rewrite Hget, list_elem_of_filter. unfold equals.
    rewrite Is_true_true, String.eqb_eq. tauto. }
  split_and!; [done|done| |].
  - intros Hnone. destruct (get this u) as [|d l] eqn:Hres; [done|].
    destruct (Hin d) as [[Hd Hu] _]; [left|]. by destruct (Hnone d Hd).
  - intros other Hsame. unfold get. by rewrite Hsame.
Qed.

Lemma get_collects_matches_witness :
  get (mkIndex Sample.forest2 ∅ ∅ []) "a" = [Sample.a; Sample.a2]
  ∧ get (mkIndex Sample.forest2 ∅ ∅ []) "missing-url" = [].
Proof.
  split.
  - apply (proj1 (get_collects_matches (mkIndex Sample.forest2 ∅ ∅ []) "a")).
  - apply (proj1 (proj2 (proj2 (get_collects_matches
                                  (mkIndex Sample.forest2 ∅ ∅ []) "missing-url")))).
    intros d Hd. vm_compute in Hd.
    repeat (apply elem_of_cons in Hd as [->|Hd]; [discriminate|]).
    by apply elem_of_nil in Hd.
Defined.

(** ** Properties of treesaver.array.remove *)

Lemma with_warnings_nil {A : Type} (c : Outcome A) : with_warnings [] c = c.
Proof. by destruct c. Qed.

Lemma Returns_bind {A B : Type} (a : A) (w : list string) (f : A → Outcome B) :
  Returns a w ≫= f = with_warnings w (f a).
Proof. done. Qed.

Lemma ret_bind {A B : Type} (a : A) (f : A → Outcome B) : mret a ≫= f = f a.
Proof. apply with_warnings_nil. Qed.

Section ArrayRemoveFacts.
Context {A : Type} (undefined : A).

Lemma num_or_in_range (from to : Z) :
  0 ≤ from → from ≤ to → num_or (Some to) from = to.
Proof.
  intros Hfrom Hto. unfold num_or. destruct (to =? 0) eqn:Hz; [|done].
  apply Z.eqb_eq in Hz. lia.
Qed.

Lemma slice_from_in_range (start : Z) (array : list A) :
  0 ≤ start → slice_from start array = drop (Z.to_nat start) array.
Proof.
  intros Hstart. unfold slice_from.
  destruct (start <? 0) eqn:Hneg; [apply Z.ltb_lt in Hneg; lia|].
  destruct (Z.min_spec start (Z.of_nat (length array))) as [[_ ->]|[Hge ->]]; [done|].
  rewrite Nat2Z.id, !drop_ge; [done|lia..].
Qed.

Lemma set_length_truncates (n : Z) (array : list A) :
  0 ≤ n → n ≤ Z.of_nat (length array) → Z.of_nat (length array) < 2 ^ 32 →
  set_length undefined n array = Returns (take (Z.to_nat n) array) [].
Proof.
  intros Hn Hlen Hmax. unfold set_length.
  destruct (n <? 0) eqn:Hneg; [apply Z.ltb_lt in Hneg; lia|].
  destruct (2 ^ 32 - 1 <? n) eqn:Hbig; [apply Z.ltb_lt in Hbig; lia|].
  simpl. replace (Z.to_nat n - length array)%nat with 0%nat by lia.
  by rewrite app_nil_r.
Qed.

Lemma push_apply_fits (array rest : list A) :
  Z.of_nat (length (array ++ rest)) < 2 ^ 32 →
  push_apply array rest = Returns (Z.of_nat (length (array ++ rest)), array ++ rest) [].
Proof.
  intros Hfits. unfold push_apply.
  by destruct (2 ^ 32 - 1 <? _) eqn:Hbig; [apply Z.ltb_lt in Hbig; lia|].
Qed.

Lemma remove_from_upto (array : list A) (from last : Z) (to : option Z) :
  0 ≤ from → from ≤ last → last < Z.of_nat (length array) →
  Z.of_nat (length array) < 2 ^ 32 →
  num_or to from = last →
  remove undefined array from to =
  Returns (Z.of_nat (length array) - (last - from + 1),
           take (Z.to_nat from) array ++ drop (Z.to_nat last + 1) array) [].
Proof.
  intros Hfrom Hlast Hlen Hmax Hor. unfold remove. rewrite Hor.
  destruct (last + 1 =? 0) eqn:Hz; [apply Z.eqb_eq in Hz; lia|].
  rewrite slice_from_in_range by lia.
  destruct (from <? 0) eqn:Hneg; [apply Z.ltb_lt in Hneg; lia|].
  rewrite set_length_truncates by lia. rewrite Returns_bind, with_warnings_nil.
  rewrite push_apply_fits by (rewrite length_app, length_take, length_drop; lia).
  replace (Z.to_nat (last + 1)) with (Z.to_nat last + 1)%nat by lia.
  do 2 f_equal. rewrite length_app, length_take, length_drop. lia.
Qed.
End ArrayRemoveFacts.

(** C10. For an array [a] and [0 <= from <= to < a.length],
    [remove(a, from, to)] leaves in [a] the elements before [from] followed
    by the elements after [to], in their order, and returns the new length
    [a.length - (to - from + 1)]; with [to] omitted it deletes the one
    element at [from]. *)
Theorem remove_deletes_range {A : Type} (undefined : A) (a : list A) (from to : Z) :
  Z.of_nat (length a) < 2 ^ 32 →
  0 ≤ from → from ≤ to → to < Z.of_nat (length a) →
  remove undefined a from (Some to) =
    Returns (Z.of_nat (length a) - (to - from + 1),
             take (Z.to_nat from) a ++ drop (Z.to_nat to + 1) a) []
  ∧ remove undefined a from None =
    Returns (Z.of_nat (length a) - 1,
             take (Z.to_nat from) a ++ drop (Z.to_nat from + 1) a) [].
Proof.
  intros Hmax Hfrom Hto Hlen. split.
  - apply remove_from_upto; try done. by apply num_or_in_range.
  - rewrite (remove_from_upto undefined a from from None) by (done || lia).
    do 2 f_equal. lia.
Qed.

Lemma remove_deletes_range_witness :
  remove 0 [10; 11; 12; 13; 14] 1 (Some 3) = Returns (2, [10; 14]) []
  ∧ remove 0 [10; 11; 12; 13; 14] 1 None = Returns (4, [10; 12; 13; 14]) [].
Proof.
  apply (remove_deletes_range 0 [10; 11; 12; 13; 14] 1 3); simpl; lia.
Defined.

(** ** Properties of Settings *)

(** C9. [new Settings(s)] for an object [s] (or nothing) has an empty
    [settings] map, whatever [s] holds, and [get] on it returns the default
    for every name: the copying function is handed to [Object.keys], which
    does not call it. *)
Theorem Settings_new_ignores_argument (s : JSValue) (k : string) (d : JSValue) :
  (truthy s = false ∨ (∃ fields, s = JObj fields) ∨ (∃ elems, s = JArr elems)) →
  ∃ this, Settings_new s = Returns this []
          ∧ settings this = ∅
          ∧ Settings_get this k d = d.
Proof.
  intros Hs. exists (mkSettings ∅). split; [|done]. unfold Settings_new.
  destruct Hs as [->|[[fields ->]|[elems ->]]]; done.
Qed.

Lemma Settings_new_ignores_argument_witness :
  ∃ this, Settings_new (JObj [("theme", JStr "dark")]) = Returns this []
          ∧ settings this = ∅
          ∧ Settings_get this "theme" (JStr "light") = JStr "light".
Proof.
  apply (Settings_new_ignores_argument (JObj [("theme", JStr "dark")]) "theme" (JStr "light")).
  right. left. by eexists.
Defined.

(** ** Properties of the parser *)

Lemma jdepth_elem (c : JSValue) (elems : list JSValue) :
  c ∈ elems → (jdepth c < jdepth (JArr elems))%nat.
Proof.
  simpl. induction elems as [|x elems IH]; intros Hin.
  - by apply elem_of_nil in Hin.
  - simpl. apply elem_of_cons in Hin as [->|Hin]; [lia|]. specialize (IH Hin). lia.
Qed.

Lemma jdepth_field (k : string) (fields : list (string * JSValue)) :
  (jdepth (lookup_field k fields) < jdepth (JObj fields))%nat.
Proof.
  simpl. induction fields as [|[k' v] fields IH]; simpl; [lia|].
  destruct (String.eqb k k'); simpl in *; lia.
Qed.

Lemma jdepth_child (entry c : JSValue) :
  c ∈ child_entries entry → (jdepth c < jdepth entry)%nat.
Proof.
  destruct entry as [| | | | | |fields]; simpl; try by intros ?%elem_of_nil.
  intros Hin. pose proof (jdepth_field "children" fields) as Hf.
  destruct (lookup_field "children" fields) as [| | | | |elems|] eqn:Hc;
    simpl in Hin; try by apply elem_of_nil in Hin.
  apply jdepth_elem in Hin. simpl in *. lia.
Qed.

Section ParserFacts.
Variable absoluteURL : string → string.
Variable stripHash : string → string.
Variable json_parse : string → string + JSValue.

#[local] Abbreviation parseEntry_body' := (parseEntry_body absoluteURL stripHash).
#[local] Abbreviation parseEntry_upto' := (parseEntry_upto absoluteURL stripHash).
#[local] Abbreviation parseEntry' := (parseEntry absoluteURL stripHash).
#[local] Abbreviation parse' := (parse absoluteURL stripHash json_parse).

Lemma forEach_ext {A B : Type} (f g : B → A → Outcome B) (l : list A) (acc : B) :
  (∀ x acc, x ∈ l → f acc x = g acc x) → forEach f l acc = forEach g l acc.
Proof.
  revert acc. induction l as [|x l IH]; intros acc Hfg; simpl; [done|].
  rewrite Hfg by left. destruct (g acc x) as [acc' w|e w]; simpl; [|done].
  rewrite IH; [done|]. intros. apply Hfg. by right.
Qed.

(** The body only calls [self] on the child entries. *)
Lemma parseEntry_body_ext (f g : JSValue → Outcome (option Doc)) (entry : JSValue) :
  (∀ c, c ∈ child_entries entry → f c = g c) →
  parseEntry_body' f entry = parseEntry_body' g entry.
Proof.
  intros Hfg. destruct entry as [| | | | | |fields]; try done.
  unfold parseEntry_body. simpl.
  destruct (truthy (lookup_field "url" fields)); simpl; [|done].
  destruct (canonical_url _ _ _) as [u w|e w]; simpl; [|done].
  destruct (forEach _ fields.*1 ∅) as [m w'|e w']; simpl; [|done].
  destruct (truthy _ && isArray _); simpl; [|done].
  erewrite forEach_ext; [done|]. intros c doc Hc. simpl. by rewrite Hfg.
Qed.

Lemma parseEntry_upto_enough (n m : nat) (entry : JSValue) :
  (jdepth entry < n)%nat → (jdepth entry < m)%nat →
  parseEntry_upto' n entry = parseEntry_upto' m entry.
Proof.
  revert m entry. induction n as [|n IH]; intros m entry Hn Hm; [lia|].
  destruct m as [|m]; [lia|]. simpl. apply parseEntry_body_ext.
  intros c Hc%jdepth_child. apply IH; lia.
Qed.

(** [parseEntry] is the function its source text defines. *)
Lemma parseEntry_unfold (entry : JSValue) :
  parseEntry' entry = parseEntry_body' parseEntry' entry.
Proof.
  unfold parseEntry at 1. simpl. apply parseEntry_body_ext.
  intros c Hc%jdepth_child. apply parseEntry_upto_enough; lia.
Qed.

#[local] Abbreviation entry_result' := (entry_result absoluteURL stripHash).
#[local] Abbreviation entry_warnings' := (entry_warnings absoluteURL stripHash).
#[local] Abbreviation built_from' := (built_from absoluteURL stripHash).

Lemma forEach_copy_fields (fields : list (string * JSValue)) (keys : list string)
    (meta : gmap string JSValue) :
  forEach (λ meta key, v ← mret (lookup_field key fields);
                       mret (assign_property key v meta))
          keys meta
  = Returns (copy_fields fields keys meta) [].
Proof.
  revert meta. induction keys as [|k keys IH]; intros meta; [done|].
  simpl. by rewrite IH.
Qed.

Lemma copy_fields_lookup (fields : list (string * JSValue)) (keys : list string)
    (meta : gmap string JSValue) (k : string) :
  meta !! "__proto__" = None →
  copy_fields fields keys meta !! k =
  if decide (k ∈ keys ∧ k ≠ "__proto__") then Some (lookup_field k fields) else meta !! k.
Proof.
  revert meta. induction keys as [|x keys IH]; intros meta Hmeta; simpl; [done|].
  rewrite IH by by apply assign_property_no_proto.
  destruct (decide (k ∈ keys ∧ k ≠ "__proto__")) as [[Hin Hk]|Hnin].
  { rewrite decide_True; [done|]. split; [by right|done]. }
  destruct (decide (x = "__proto__")) as [->|Hx].
  - rewrite assign_property_proto by done. case_decide as Hin; [|done].
    destruct Hin as [[?|?]%elem_of_cons Hk]; [done|]. by destruct Hnin.
  - rewrite assign_property_insert by done. destruct (decide (k = x)) as [->|Hne].
    + rewrite decide_True by (split; [left|done]). by rewrite lookup_insert_eq.
    + rewrite decide_False; [by rewrite lookup_insert_ne|].
      intros [[?|?]%elem_of_cons Hk]; [done|]. by apply Hnin.
Qed.

(** Appending the results for the child entries: a null result appends
    nothing. *)
Lemma forEach_children (cs : list JSValue) (u : string) (m : gmap string JSValue)
    (kids : list Doc) :
  (∀ c, c ∈ cs → ∃ r w, parseEntry' c = Returns r w) →
  forEach (λ doc child, r ← parseEntry' child; mret (appendChild doc r).2)
          cs (mkDoc u m kids)
  = Returns (mkDoc u m (kids ++ omap entry_result' cs)) (cs ≫= entry_warnings').
Proof.
  revert kids. induction cs as [|c cs IH]; intros kids Hret; simpl.
  - by rewrite app_nil_r.
  - destruct (Hret c) as (r & w & Hc); [left|].
    unfold entry_result, entry_warnings. rewrite Hc. simpl.
    destruct r as [d|]; simpl.
    + rewrite IH by (intros; apply Hret; by right).
      by rewrite <- app_assoc, app_nil_r.
    + rewrite IH by (intros; apply Hret; by right). by rewrite app_nil_r.
Qed.

Lemma parseEntry_skipped (fields : list (string * JSValue)) :
  has_url (JObj fields) = false →
  parseEntry' (JObj fields) = Returns None ["Ignored document index entry without URL"].
Proof.
  intros Hurl. rewrite parseEntry_unfold. unfold parseEntry_body. simpl.
  unfold has_url in Hurl. simpl in Hurl. by rewrite Hurl.
Qed.

Lemma parseEntry_document (fields : list (string * JSValue)) (s : string) :
  lookup_field "url" fields = JStr s →
  has_url (JObj fields) = true →
  (∀ c, c ∈ child_entries (JObj fields) → ∃ r w, parseEntry' c = Returns r w) →
  parseEntry' (JObj fields) =
  Returns (Some (mkDoc (stripHash (absoluteURL s)) (copy_fields fields fields.*1 ∅)
                       (omap entry_result' (child_entries (JObj fields)))))
          (child_entries (JObj fields) ≫= entry_warnings').
Proof.
  intros Hs Hurl Hkids. rewrite parseEntry_unfold. unfold parseEntry_body, Document_new.
  unfold has_url in Hurl. cbn [get_prop Object_keys] in *. rewrite !ret_bind.
  cbn [entry_url] in Hurl. rewrite Hurl, Hs. cbn [negb canonical_url].
  rewrite !ret_bind, forEach_copy_fields, Returns_bind, with_warnings_nil.
  cbn [child_entries] in *.
  destruct (lookup_field "children" fields) as [| | | | |elems|];
    cbn [truthy isArray andb elements] in *; rewrite ?andb_false_r;
    try by rewrite ret_bind.
  rewrite forEach_children by done. rewrite Returns_bind.
  cbn [mret Outcome_ret with_warnings]. by rewrite app_nil_r.
Qed.

(** On a raw entry of the input format the parser returns: nothing, with
    a warning, for an entry without url, and otherwise the document tree
    of the entry. *)
Lemma parseEntry_valid (entry : JSValue) :
  valid_entry entry →
  (∃ r w, parseEntry' entry = Returns r w)
  ∧ (has_url entry = false →
     parseEntry' entry = Returns None ["Ignored document index entry without URL"])
  ∧ (has_url entry = true →
     ∃ d, entry_result' entry = Some d ∧ built_from' entry d).
Proof.
  remember (jdepth entry) as n eqn:Hn. revert entry Hn.
  induction (lt_wf n) as [n _ IH]. intros entry -> Hvalid.
  destruct Hvalid as [fields Hurl|fields s Hs Hurl Hkids].
  - rewrite parseEntry_skipped by done. split_and!; [by eexists _, _|done|].
    intros Hurl'. congruence.
  - assert (Hall : ∀ c, c ∈ child_entries (JObj fields) →
               (∃ r w, parseEntry' c = Returns r w)
               ∧ (has_url c = false → entry_result' c = None)
               ∧ (has_url c = true → ∃ d, entry_result' c = Some d ∧ built_from' c d)).
    { intros c Hc. rewrite Forall_forall in Hkids.
      destruct (IH (jdepth c) (jdepth_child _ _ Hc) c eq_refl (Hkids c Hc))
        as (? & Hnone & ?).
      split_and!; [done| |done]. intros Hno. unfold entry_result. by rewrite Hnone. }
    pose proof (parseEntry_document fields s Hs Hurl (λ c Hc, proj1 (Hall c Hc))) as Hp.
    split_and!; [by eexists _, _|congruence|].
    intros _. unfold entry_result at 1. rewrite Hp. eexists. split; [done|].
    constructor; [done|intros k; by rewrite copy_fields_lookup, lookup_empty by done|].
    clear Hp Hkids IH. induction (child_entries (JObj fields)) as [|c cs IHcs]; [constructor|].
    rewrite filter_cons. simpl.
    destruct (Hall c) as (_ & Hnone & Hbuilt); [left|].
    assert (Hrest : Forall2 built_from' (filter (λ c, has_url c) cs) (omap entry_result' cs)).
    { apply IHcs. intros. apply Hall. by right. }
    destruct (has_url c) eqn:Hurlc.
    + destruct (Hbuilt eq_refl) as (d & Hd & Hbd). rewrite decide_True by done.
      rewrite Hd. by constructor.
    + rewrite decide_False by (by intros []). by rewrite Hnone.
Qed.

Lemma mapM_parseEntry (entries : list JSValue) :
  (∀ e, e ∈ entries → ∃ r w, parseEntry' e = Returns r w) →
  mapM parseEntry' entries
  = Returns (entry_result' <$> entries) (entries ≫= entry_warnings').
Proof.
  induction entries as [|e entries IH]; intros Hret; [done|].
  destruct (Hret e) as (r & w & He); [left|].
  cbn [mapM]. rewrite He, Returns_bind, IH by (intros; apply Hret; by right).
  rewrite Returns_bind.
  cbn [mret Outcome_ret with_warnings fmap list_fmap mbind list_bind].
  unfold entry_result at 2, entry_warnings at 2. by rewrite He, app_nil_r.
Qed.

Lemma filter_not_null (results : list (option Doc)) :
  filter (λ entry, entry ≠ None) results = Some <$> omap id results.
Proof.
  induction results as [|[d|] results IH]; [done| |].
  - rewrite filter_cons_True by done. simpl. by rewrite IH.
  - rewrite filter_cons_False by (by intros []). by rewrite IH.
Qed.

Lemma appendChild_all (this : Index) (out : list (option Doc)) (docs : list Doc) :
  foldl (λ '(out, this) entry,
           let '(r, this) := appendChild this entry in (out ++ [r], this))
        (out, this) (Some <$> docs)
  = (out ++ (Some <$> docs), set_children (children this ++ docs) this).
Proof.
  revert this out. induction docs as [|d docs IH]; intros this out.
  - destruct this. simpl. by rewrite !app_nil_r.
  - simpl. rewrite IH. simpl. by rewrite <- !app_assoc.
Qed.

Lemma omap_entry_result (entries : list JSValue) :
  omap id (entry_result' <$> entries) = omap entry_result' entries.
Proof.
  induction entries as [|e entries IH]; [done|].
  cbn [fmap list_fmap omap list_omap id] in *. by rewrite IH.
Qed.

Lemma parse_array (this : Index) (entries : list JSValue) :
  (∀ e, e ∈ entries → ∃ r w, parseEntry' e = Returns r w) →
  parse' this (JArr entries)
  = Returns (Some <$> omap entry_result' entries,
             set_children (children this ++ omap entry_result' entries) this)
            (entries ≫= entry_warnings').
Proof.
  intros Hret. unfold parse. cbn [truthy negb isArray elements].
  rewrite mapM_parseEntry, Returns_bind by done.
  rewrite filter_not_null, omap_entry_result, appendChild_all.
  cbn [mret Outcome_ret with_warnings]. by rewrite app_nil_r.
Qed.

Lemma nonempty_truthy (s : string) : s ≠ "" → truthy (JStr s) = true.
Proof. intros Hs. simpl. by destruct s. Qed.

Lemma lookup_field_key (k : string) (fields : list (string * JSValue)) :
  lookup_field k fields ≠ JUndefined → k ∈ fields.*1.
Proof.
  induction fields as [|[k' v] fields IH]; simpl; [done|].
  destruct (String.eqb_spec k k') as [->|Hne]; [left|right; auto].
Qed.

Lemma lookup_field_NoDup (k : string) (v : JSValue) (fields : list (string * JSValue)) :
  NoDup fields.*1 → (k, v) ∈ fields → lookup_field k fields = v.
Proof.
  induction fields as [|[k' v'] fields IH]; intros Hnd Hin; [by apply elem_of_nil in Hin|].
  simpl in *. apply NoDup_cons in Hnd as [Hk' Hnd].
  apply elem_of_cons in Hin as [[= -> ->]|Hin]; [by rewrite String.eqb_refl|].
  destruct (String.eqb_spec k k') as [->|Hne]; [|by apply IH].
  destruct Hk'. apply list_elem_of_fmap. by exists (k', v).
Qed.

Lemma built_entries (entries : list JSValue) :
  Forall valid_entry entries →
  Forall2 built_from' (filter (λ e, has_url e) entries) (omap entry_result' entries).
Proof.
  induction 1 as [|e es He _ IH]; [constructor|].
  destruct (parseEntry_valid e He) as (_ & Hnone & Hsome).
  rewrite filter_cons. cbn [omap list_omap]. destruct (has_url e) eqn:Hurl.
  - destruct (Hsome eq_refl) as (d & -> & Hd). rewrite decide_True by done.
    by constructor.
  - rewrite decide_False by (by intros []).
    unfold entry_result at 1. by rewrite Hnone.
Qed.

Lemma valid_entries_return (entries : list JSValue) :
  Forall valid_entry entries →
  ∀ e, e ∈ entries → ∃ r w, parseEntry' e = Returns r w.
Proof.
  rewrite Forall_forall. intros Hvalid e He.
  by destruct (parseEntry_valid e (Hvalid e He)).
Qed.

Lemma parse_valid_array (this : Index) (entries : list JSValue) :
  Forall valid_entry entries →
  parse' this (JArr entries)
  = Returns (Some <$> omap entry_result' entries,
             set_children (children this ++ omap entry_result' entries) this)
            (entries ≫= entry_warnings').
Proof. intros Hvalid. by apply parse_array, valid_entries_return. Qed.

Lemma parseEntry_valid_document (fields : list (string * JSValue)) :
  valid_entry (JObj fields) → has_url (JObj fields) = true →
  ∃ s, lookup_field "url" fields = JStr s
       ∧ parseEntry' (JObj fields) =
         Returns (Some (mkDoc (stripHash (absoluteURL s)) (copy_fields fields fields.*1 ∅)
                              (omap entry_result' (child_entries (JObj fields)))))
                 (child_entries (JObj fields) ≫= entry_warnings')
       ∧ Forall2 built_from' (filter (λ c, has_url c) (child_entries (JObj fields)))
                 (omap entry_result' (child_entries (JObj fields))).
Proof.
  intros Hvalid Hurl. inversion Hvalid as [|? s Hs _ Hkids]; [congruence|]. subst.
  exists s. split_and!; [done| |by apply built_entries].
  apply parseEntry_document; [done..|]. by apply valid_entries_return.
Qed.
End ParserFacts.


Section ParserClaims.
Variable absoluteURL : string → string.
Variable stripHash : string → string.
Variable json_parse : string → string + JSValue.

#[local] Abbreviation parseEntry' := (parseEntry absoluteURL stripHash).
#[local] Abbreviation parse' := (parse absoluteURL stripHash json_parse).
#[local] Abbreviation entry_result' := (entry_result absoluteURL stripHash).
#[local] Abbreviation entry_warnings' := (entry_warnings absoluteURL stripHash).
#[local] Abbreviation built_from' := (built_from absoluteURL stripHash).

(** C4. On an array of raw entries, [parse] runs [parseEntry] on every
    entry, which returns null after one warning exactly for the entries
    without a truthy url; it appends the documents of the other entries
    to the children of the index, in the order of the entries, and
    returns these documents. The same holds for a string that decodes to
    the array. *)
Theorem parse_attaches_entries_with_url (this : Index) (entries : list JSValue) :
  Forall valid_entry entries →
  let docs := omap entry_result' entries in
  parse' this (JArr entries)
    = Returns (Some <$> docs, set_children (children this ++ docs) this)
              (entries ≫= entry_warnings')
  ∧ (∀ s, s ≠ "" → json_parse s = inr (JArr entries) →
       parse' this (JStr s) = parse' this (JArr entries))
  ∧ Forall2 built_from' (filter (λ e, has_url e) entries) docs
  ∧ (∀ e, e ∈ entries →
       (has_url e = false →
        parseEntry' e = Returns None ["Ignored document index entry without URL"])
       ∧ (has_url e = true → ∃ d w, parseEntry' e = Returns (Some d) w)).
Proof.
  intros Hvalid docs. split_and!.
  - by apply parse_valid_array.
  - intros s Hs Hdec. unfold parse. rewrite (nonempty_truthy s Hs). simpl.
    by rewrite Hdec.
  - by apply built_entries.
  - intros e He. rewrite Forall_forall in Hvalid.
    destruct (parseEntry_valid absoluteURL stripHash e (Hvalid e He))
      as ((r & w & Hr) & Hnone & Hsome).
    split; [done|]. intros Hurl. destruct (Hsome Hurl) as (d & Hd & _).
    unfold entry_result in Hd. rewrite Hr in Hd. subst r. by exists d, w.
Qed.

(** C5. [parse] returns the empty array, throws nothing and leaves the
    index as it was: for a falsy input (no warning); for a string that
    the decoder rejects (one warning, with the decoder's exception); for
    an input that is not an array, decoded or not (one warning). *)
Theorem parse_degenerate_inputs (this : Index) :
(∀ index, truthy index = false → parse' this index = Returns ([], this) [])
∧ (∀ s e, json_parse s = inl e →
     parse' this (JStr s)
     = Returns ([], this)
         (if decide (s = "") then []
          else ["Tried to parse TOC index file, but failed: " +:+ e]))
∧ (∀ index, truthy index = true → (∀ s, index ≠ JStr s) → isArray index = false →
     parse' this index
     = Returns ([], this) ["Document index should be an array of objects."])
∧ (∀ s v, json_parse s = inr v → isArray v = false →
     parse' this (JStr s)
     = Returns ([], this)
         (if decide (s = "") then []
          else ["Document index should be an array of objects."])).
Proof.
  split_and!.
  - intros index Hfalsy. unfold parse. by rewrite Hfalsy.
  - intros s e Hdec. case_decide as Hs; [by subst s|].
    unfold parse. rewrite (nonempty_truthy s Hs). simpl. by rewrite Hdec.
  - intros index Htruthy Hstr Harr. unfold parse. rewrite Htruthy. simpl.
    destruct index as [| | | |s| |]; try done. by destruct (Hstr s).
  - intros s v Hdec Harr. case_decide as Hs; [by subst s|].
    unfold parse. rewrite (nonempty_truthy s Hs). simpl. by rewrite Hdec, Harr.
Qed.

(** C7. [parseEntry] means to copy every field of the entry into [meta]
    (its comment: copy all meta fields into a new object), and a field
    named [__proto__] is not copied: for the entry that
    [{"url": "/a", "__proto__": 5}] decodes to, the document has the
    resolved url as [url] and a [meta] that holds the url as the entry
    has it and nothing else. *)
Theorem parseEntry_meta_misses_proto :
  let entry := JObj [("url", JStr "/a"); ("__proto__", JNum 5)] in
  valid_entry entry
  ∧ has_url entry = true
  ∧ lookup_field "__proto__" [("url", JStr "/a"); ("__proto__", JNum 5)] = JNum 5
  ∧ ∃ doc, parseEntry' entry = Returns (Some doc) []
           ∧ url doc = stripHash (absoluteURL "/a")
           ∧ meta doc !! "url" = Some (JStr "/a")
           ∧ meta doc !! "__proto__" = None
           ∧ meta doc = {["url" := JStr "/a"]}.
Proof.
  intros entry. split_and!.
  - eapply valid_document; [reflexivity|reflexivity|constructor].
  - reflexivity.
  - reflexivity.
  - eexists. split; [reflexivity|]. by split_and!.
Qed.

(** C8. The children of a document that [parseEntry] builds are the
    documents of the child entries that have a url, one each and in
    their order, at every level of the tree: as many children as child
    entries with a url, a child entry without one leaves no placeholder.
    The children [parse] adds to the index are the documents of the
    entries that have a url, as many as there are, and the array it
    returns lists these documents and no null. This rests on
    [appendChild], which with a null node returns it and leaves the
    children as they were, for a document and for the index. *)
Theorem children_have_no_placeholder :
  (∀ d : Doc, appendChild d None = (None, d))
  ∧ (∀ this : Index, appendChild this None = (None, this))
  ∧ (∀ entry, valid_entry entry → has_url entry = true →
       ∃ doc w, parseEntry' entry = Returns (Some doc) w
                ∧ built_from' entry doc
                ∧ children doc = omap entry_result' (child_entries entry)
                ∧ length (children doc)
                  = length (filter (λ c, has_url c) (child_entries entry))
                ∧ Forall2 built_from'
                    (filter (λ c, has_url c) (child_entries entry)) (children doc))
  ∧ (∀ (this : Index) entries, Forall valid_entry entries →
       ∃ docs this' w, parse' this (JArr entries) = Returns (Some <$> docs, this') w
                       ∧ children this' = children this ++ docs
                       ∧ docs = omap entry_result' entries
                       ∧ length docs = length (filter (λ e, has_url e) entries)
                       ∧ Forall2 built_from' (filter (λ e, has_url e) entries) docs).
Proof.
  split_and!; [done|done| |].
  - intros entry Hvalid Hurl.
    destruct (parseEntry_valid absoluteURL stripHash entry Hvalid) as (_ & _ & Hsome).
    destruct (Hsome Hurl) as (d & Hd & Hbuilt).
    destruct entry as [| | | | | |fields]; try done.
    destruct (parseEntry_valid_document absoluteURL stripHash fields Hvalid Hurl)
      as (s & Hs & Hp & Hkids).
    unfold entry_result in Hd. rewrite Hp in Hd. injection Hd as <-.
    eexists _, _. split_and!; [done|done|done| |done].
    symmetry. by eapply Forall2_length.
  - intros this entries Hvalid.
    pose proof (built_entries absoluteURL stripHash entries Hvalid) as Hbuilt.
    eexists _, _, _. split_and!.
    + by apply parse_valid_array.
    + done.
    + done.
    + symmetry. by eapply Forall2_length.
    + done.
Qed.
End ParserClaims.

(** The sample entries are raw entries of the input format. *)
Ltac valid_sample :=
  repeat first
    [ apply valid_skipped; reflexivity
    | eapply valid_document; [reflexivity | reflexivity | simpl]
    | constructor ].

Lemma sample_entries_valid : Forall valid_entry Sample.entries.
Proof. valid_sample. Qed.

Lemma parse_attaches_entries_with_url_witness :
  Forall valid_entry Sample.entries
  ∧ parse Sample.absoluteURL Sample.stripHash Sample.json_parse Index_new
          (JArr Sample.entries)
    = Returns
        (Some <$> omap (entry_result Sample.absoluteURL Sample.stripHash) Sample.entries,
         set_children
           (children Index_new
            ++ omap (entry_result Sample.absoluteURL Sample.stripHash) Sample.entries)
           Index_new)
        (Sample.entries ≫= entry_warnings Sample.absoluteURL Sample.stripHash).
Proof.
  split; [exact sample_entries_valid|].
  apply (parse_attaches_entries_with_url Sample.absoluteURL Sample.stripHash
           Sample.json_parse Index_new Sample.entries sample_entries_valid).
Defined.

Lemma parse_degenerate_inputs_witness :
  parse Sample.absoluteURL Sample.stripHash Sample.json_parse Index_new (JNum 0)
    = Returns ([], Index_new) []
  ∧ parse Sample.absoluteURL Sample.stripHash Sample.json_parse Index_new (JStr "[oops")
    = Returns ([], Index_new) ["Tried to parse TOC index file, but failed: SyntaxError"]
  ∧ parse Sample.absoluteURL Sample.stripHash Sample.json_parse Index_new (JObj [])
    = Returns ([], Index_new) ["Document index should be an array of objects."]
  ∧ parse Sample.absoluteURL Sample.stripHash Sample.json_parse Index_new (JStr "{}")
    = Returns ([], Index_new) ["Document index should be an array of objects."].
Proof.
  destruct (parse_degenerate_inputs Sample.absoluteURL Sample.stripHash
              Sample.json_parse Index_new) as (Hfalsy & Hdecode & Hshape & Hdecoded).
  split_and!.
  - apply Hfalsy. reflexivity.
  - apply (Hdecode "[oops" "SyntaxError"). reflexivity.
  - apply Hshape; [reflexivity|discriminate|reflexivity].
  - apply (Hdecoded "{}" (JObj [])); reflexivity.
Defined.

Lemma children_have_no_placeholder_witness :
  valid_entry Sample.entryA ∧ has_url Sample.entryA = true
  ∧ ∃ doc w,
      parseEntry Sample.absoluteURL Sample.stripHash Sample.entryA = Returns (Some doc) w
      ∧ ∃ docB, children doc = [docB] ∧ url docB = "http://h/b".
Proof.
  assert (Hvalid : valid_entry Sample.entryA) by valid_sample.
  split_and!; [exact Hvalid|reflexivity|].
  destruct (proj1 (proj2 (proj2 (children_have_no_placeholder
                                   Sample.absoluteURL Sample.stripHash Sample.json_parse)))
              Sample.entryA Hvalid eq_refl)
    as (doc & w & Hp & _ & Hkids & _).
  exists doc, w. split; [exact Hp|]. rewrite Hkids. eexists. split; reflexivity.
Defined.

(** ** The other operations of the index and of the settings *)

Lemma getNumberOfDocuments_update (this : Index) :
  getNumberOfDocuments (update this).1
  = Z.of_nat (length (before_inherited (preorder (children this)))).
Proof.
  destruct (update_state_after this) as ((_ & Hdocs & _) & _). cbn [fst] in Hdocs.
  unfold getNumberOfDocuments. by rewrite Hdocs.
Qed.

Lemma getDocumentByIndex_out_of_range (this : Index) (index : Z) :
  index < 0 ∨ Z.of_nat (length (documents this)) ≤ index →
  getDocumentByIndex this index = None.
Proof.
  intros Hrange. unfold getDocumentByIndex.
  destruct (index <? 0) eqn:Hneg; [done|]. apply Z.ltb_ge in Hneg.
  apply lookup_ge_None. lia.
Qed.


(** * Further properties *)

(** ** The documents a walk visits *)

Lemma visit_until_false_traced {St : Type} (fn : Doc → St → JSValue * St)
    (l seen : list Doc) (s : St) :
  ∃ k, (k ≤ length l)%nat
       ∧ visit_until_false (traced fn) l (seen, s)
         = ((visit_until_false fn l s).1, (seen ++ take k l, (visit_until_false fn l s).2))
       ∧ ((visit_until_false fn l s).1 = true → k = length l)
       ∧ ((visit_until_false fn l s).1 = false → (0 < k)%nat).
Proof.
  revert seen s. induction l as [|d l IH]; intros seen s.
  - exists 0%nat. simpl. rewrite app_nil_r. split_and!; [lia|done|done|done].
  - simpl. unfold traced at 1. simpl. destruct (fn d s) as [v s1] eqn:Hfn.
    destruct (IH (seen ++ [d]) s1) as (k & Hk & Hrun & Htrue & Hfalse).
    assert (Hstop : v = JBool false →
              ∃ k, (k ≤ S (length l))%nat
                   ∧ (false, (seen ++ [d], s1)) = (false, (seen ++ take k (d :: l), s1))
                   ∧ (false = true → k = S (length l)) ∧ (false = false → (0 < k)%nat)).
    { intros _. exists 1%nat. simpl. rewrite take_0. split_and!; [lia|done|done|lia]. }
    assert (Hgo : ∃ k', (k' ≤ S (length l))%nat
                   ∧ visit_until_false (traced fn) l (seen ++ [d], s1)
                     = ((visit_until_false fn l s1).1,
                        (seen ++ take k' (d :: l), (visit_until_false fn l s1).2))
                   ∧ ((visit_until_false fn l s1).1 = true → k' = S (length l))
                   ∧ ((visit_until_false fn l s1).1 = false → (0 < k')%nat)).
    { exists (S k). simpl. rewrite Hrun, <- app_assoc. simpl.
      split_and!; [lia|done|intros ?; f_equal; auto|lia]. }
    destruct v as [| |[]| | | |]; simpl; auto.
Qed.

(** X1. Whatever the visitor does, the documents [walk] calls it on, in
    the order of the calls, are an initial segment of the depth-first
    pre-order list: no document is visited twice, skipped or visited out
    of order. The segment is the whole list when the walk returns [true]
    and is not empty when it returns [false]; noting the visits changes
    neither the result nor the visitor's state. *)
Theorem walk_visits_a_prefix {St : Type} (fn : Doc → St → JSValue * St)
    (forest : list Doc) (s : St) :
  let run := walk (traced fn) forest ([], s) in
  run.2.1 `prefix_of` preorder forest
  ∧ (run.1 = true → run.2.1 = preorder forest)
  ∧ (run.1 = false → run.2.1 ≠ [])
  ∧ walk fn forest s = (run.1, run.2.2).
Proof.
  intros run. subst run. rewrite !walk_preorder.
  destruct (visit_until_false_traced fn (preorder forest) [] s)
    as (k & Hk & -> & Htrue & Hfalse).
  simpl. split_and!.
  - eexists. symmetry. apply take_drop.
  - intros Hb. rewrite (Htrue Hb). apply firstn_all.
  - intros Hb Hnil. specialize (Hfalse Hb).
    apply (f_equal length) in Hnil. rewrite length_take in Hnil. simpl in Hnil. lia.
  - by destruct (visit_until_false fn (preorder forest) s).
Qed.

Lemma walk_visits_a_prefix_witness :
  (walk (traced (Sample.noting "c")) Sample.forest ([], [])).2.1
  = [Sample.a; Sample.b; Sample.c]
  ∧ (walk (traced (Sample.noting "c")) Sample.forest ([], [])).2.1 ≠ [].
Proof.
  split; [reflexivity|].
  apply (proj1 (proj2 (proj2 (walk_visits_a_prefix (Sample.noting "c") Sample.forest [])))).
  reflexivity.
Defined.

(** ** Reading the flat cache *)

Lemma update_children (this : Index) : children (update this).1 = children this.
Proof. by destruct (update_state_after this) as ((H & _) & _). Qed.

Lemma update_documents (this : Index) :
  documents (update this).1 = before_inherited (preorder (children this)).
Proof. by destruct (update_state_after this) as ((_ & H & _) & _). Qed.

Lemma update_documentMap (this : Index) (u : string) :
  documentMap (update this).1 !! u
  = some_nonempty (docs_with_url u (before_inherited (preorder (children this)))).
Proof. by destruct (update_state_after this) as ((_ & _ & _ & H & _) & _). Qed.

Lemma update_documentPositions (this : Index) (u : string) :
  documentPositions (update this).1 !! u
  = some_nonempty (positions_with_url u (before_inherited (preorder (children this)))).
Proof. by destruct (update_state_after this) as ((_ & _ & _ & _ & H) & _). Qed.

(** X2. [getDocumentByIndex(i)] is a document exactly for the indices
    [0 <= i < getNumberOfDocuments()], and [undefined] for every other
    index, negative ones included. After an [update] of a tree in which
    no url names a property of [Object.prototype], the number of
    documents is the number of nodes of the tree and the document at [i]
    is the [i]-th node in depth-first pre-order; after an [update] that
    threw, the documents are fewer than the nodes: the pre-order nodes
    before the first one with such a url. *)
Theorem getDocumentByIndex_bounds (this : Index) (i : Z) :
  let flat := preorder (children this) in
  (is_Some (getDocumentByIndex this i) ↔ 0 ≤ i < getNumberOfDocuments this)
  ∧ (plain_urls flat = true →
     getNumberOfDocuments (update this).1 = Z.of_nat (length flat)
     ∧ (0 ≤ i → getDocumentByIndex (update this).1 i = flat !! Z.to_nat i))
  ∧ (plain_urls flat = false →
     getNumberOfDocuments (update this).1 < Z.of_nat (length flat)
     ∧ (0 ≤ i →
        getDocumentByIndex (update this).1 i = before_inherited flat !! Z.to_nat i)).
Proof.
  intros flat. unfold getDocumentByIndex, getNumberOfDocuments.
  rewrite update_documents. fold flat. split_and!.
  - destruct (i <? 0) eqn:Hneg.
    + apply Z.ltb_lt in Hneg. split; [by intros [? ?]|lia].
    + apply Z.ltb_ge in Hneg. rewrite lookup_lt_is_Some. lia.
  - intros Hplain. rewrite (before_inherited_plain flat Hplain). split; [done|].
    intros Hi. destruct (i <? 0) eqn:Hneg; [apply Z.ltb_lt in Hneg; lia|done].
  - intros Hplain. split.
    + apply inj_lt. by apply before_inherited_shorter.
    + intros Hi. destruct (i <? 0) eqn:Hneg; [apply Z.ltb_lt in Hneg; lia|done].
Qed.

Lemma getDocumentByIndex_bounds_witness :
  getDocumentByIndex (update (mkIndex Sample.forest2 ∅ ∅ [])).1 3 = Some Sample.a2
  ∧ getDocumentByIndex (update (mkIndex Sample.forest3 ∅ ∅ [])).1 3 = None.
Proof.
  split.
  - rewrite (proj2 (proj1 (proj2 (getDocumentByIndex_bounds
                                    (mkIndex Sample.forest2 ∅ ∅ []) 3)) eq_refl));
      [reflexivity|lia].
  - rewrite (proj2 (proj2 (proj2 (getDocumentByIndex_bounds
                                    (mkIndex Sample.forest3 ∅ ∅ []) 3)) eq_refl));
      [reflexivity|lia].
Defined.

(** X3. From a position to its document and back, in a tree in which no
    url names a property of [Object.prototype]: for the document [d] that
    [getDocumentByIndex(i)] returns after [update], [getDocumentIndex(d)]
    is at least [i], it is [i] when no later document of the tree has the
    url of [d], and the document at the position [getDocumentIndex(d)]
    has the url of [d]. *)
Theorem index_document_round_trip (this : Index) (i : Z) (d : Doc) :
  plain_urls (preorder (children this)) = true →
  getDocumentByIndex (update this).1 i = Some d →
  i ≤ getDocumentIndex this d
  ∧ ((∀ j d', (Z.to_nat i < j)%nat → preorder (children this) !! j = Some d' →
              url d' ≠ url d) →
     getDocumentIndex this d = i)
  ∧ ∃ d', getDocumentByIndex (update this).1 (getDocumentIndex this d) = Some d'
          ∧ url d' = url d.
Proof.
  intros Hplain. unfold getDocumentByIndex.
  rewrite update_documents, (before_inherited_plain _ Hplain).
  destruct (i <? 0) eqn:Hneg; [done|]. apply Z.ltb_ge in Hneg. intros Hi.
  assert (Hd : equals d (inl d) = true) by apply String.eqb_refl.
  destruct (getDocumentIndex_last_match this d)
    as [[_ Hnone]|(Hpos & (d' & Hd' & Heq') & Hlater)].
  { rewrite Hnone in Hd; [done|]. by eapply list_elem_of_lookup_2. }
  assert (Hle : i ≤ getDocumentIndex this d).
  { destruct (decide (i ≤ getDocumentIndex this d)) as [|Hgt]; [done|].
    rewrite (Hlater (Z.to_nat i) d) in Hd; [done|lia|done]. }
  split_and!; [done| |].
  - intros Huniq. destruct (decide (getDocumentIndex this d = i)) as [|Hne]; [done|].
    destruct (Huniq (Z.to_nat (getDocumentIndex this d)) d'); [lia|done|].
    unfold equals in Heq'. by apply String.eqb_eq.
  - exists d'. destruct (getDocumentIndex this d <? 0) eqn:Hneg'.
    { apply Z.ltb_lt in Hneg'. lia. }
    split; [done|]. unfold equals in Heq'. by apply String.eqb_eq.
Qed.

Lemma index_document_round_trip_witness :
  plain_urls (preorder Sample.forest2) = true
  ∧ getDocumentByIndex (update (mkIndex Sample.forest2 ∅ ∅ [])).1 0 = Some Sample.a
  ∧ 0 ≤ getDocumentIndex (mkIndex Sample.forest2 ∅ ∅ []) Sample.a.
Proof.
  split_and!; [reflexivity|reflexivity|].
  apply (index_document_round_trip (mkIndex Sample.forest2 ∅ ∅ []) 0 Sample.a);
    reflexivity.
Defined.

Lemma get_docs_with_url (this : Index) (u : string) :
  get this u = docs_with_url u (preorder (children this)).
Proof.
  unfold get. rewrite walk_preorder, visit_never_false by apply get_visit_not_false.
  rewrite get_visit_all. simpl. apply list_filter_iff. intros d. unfold equals.
  by rewrite Is_true_true, String.eqb_eq.
Qed.

(** X4. After an [update] of a tree in which no url names a property of
    [Object.prototype], the cache and the live query agree: for every
    url, [documentMap] has an own entry exactly when [get(url)] is not
    empty, and the entry is the array [get(url)] returns. Whatever the
    urls, [update] does not change what [get] returns, and what
    [documentMap] holds for a url are the first of the documents that
    [get(url)] returns. *)
Theorem documentMap_agrees_with_get (this : Index) (u : string) :
  (plain_urls (preorder (children this)) = true →
   documentMap (update this).1 !! u = some_nonempty (get this u))
  ∧ get (update this).1 u = get this u
  ∧ (∀ ds, documentMap (update this).1 !! u = Some ds → ds `prefix_of` get this u).
Proof.
  split_and!.
  - intros Hplain.
    by rewrite update_documentMap, get_docs_with_url, before_inherited_plain.
  - by rewrite !get_docs_with_url, update_children.
  - intros ds Hds. rewrite update_documentMap in Hds.
    apply some_nonempty_Some in Hds as ->. rewrite get_docs_with_url.
    destruct (before_inherited_prefix (preorder (children this))) as [rest Hrest].
    rewrite Hrest at 2. unfold docs_with_url. rewrite filter_app. by eexists.
Qed.

Lemma documentMap_agrees_with_get_witness :
  plain_urls (preorder Sample.forest2) = true
  ∧ documentMap (update (mkIndex Sample.forest2 ∅ ∅ [])).1 !! "a"
    = Some [Sample.a; Sample.a2]
  ∧ documentMap (update (mkIndex Sample.forest3 ∅ ∅ [])).1 !! "a" = Some [Sample.a]
  ∧ [Sample.a] `prefix_of` get (mkIndex Sample.forest3 ∅ ∅ []) "a".
Proof.
  split_and!; [reflexivity| |reflexivity|].
  - rewrite (proj1 (documentMap_agrees_with_get (mkIndex Sample.forest2 ∅ ∅ []) "a")
               eq_refl).
    reflexivity.
  - apply (proj2 (proj2 (documentMap_agrees_with_get
                           (mkIndex Sample.forest3 ∅ ∅ []) "a"))).
    reflexivity.
Defined.

Lemma last_position_snoc (u : string) (l : list Doc) (d : Doc) :
  last_position u (l ++ [d]) =
  if decide (url d = u) then Z.of_nat (length l) else last_position u l.
Proof.
  unfold last_position. rewrite positions_with_url_snoc.
  case_decide; [by rewrite last_snoc|by rewrite app_nil_r].
Qed.

Lemma getDocumentIndex_visit_last_position (doc : Doc) (l seen : list Doc) :
  visit_all (getDocumentIndex_visit doc) l
            (last_position (url doc) seen, Z.of_nat (length seen))
  = (last_position (url doc) (seen ++ l), Z.of_nat (length (seen ++ l))).
Proof.
  revert seen. induction l as [|d l IH]; intros seen; [by rewrite app_nil_r|].
  change (d :: l) with ([d] ++ l). rewrite visit_all_app, app_assoc, <- IH. f_equal.
  unfold visit_all. simpl. rewrite last_position_snoc, length_app. simpl.
  unfold equals. f_equal; [|lia].
  destruct (String.eqb_spec (url d) (url doc)) as [Heq|Hne];
    [by rewrite decide_True|by rewrite decide_False].
Qed.

Lemma getDocumentIndex_last_position (this : Index) (doc : Doc) :
  getDocumentIndex this doc = last_position (url doc) (preorder (children this)).
Proof.
  unfold getDocumentIndex.
  rewrite walk_preorder, visit_never_false by apply getDocumentIndex_visit_not_false.
  by rewrite (getDocumentIndex_visit_last_position doc _ []).
Qed.

(** X5. After an [update] of a tree in which no url names a property of
    [Object.prototype], the live [getDocumentIndex(doc)] can be read off
    the cache: it is the last position that [documentPositions] lists for
    the url of [doc], and [-1] when [documentPositions] has no own entry
    for that url. *)
Theorem getDocumentIndex_agrees_with_documentPositions (this : Index) (doc : Doc) :
  plain_urls (preorder (children this)) = true →
  getDocumentIndex this doc =
  match documentPositions (update this).1 !! url doc with
  | Some ps => match last ps with Some p => Z.of_nat p | None => -1 end
  | None => -1
  end.
Proof.
  intros Hplain.
  rewrite update_documentPositions, getDocumentIndex_last_position,
    before_inherited_plain by done.
  unfold last_position. by destruct (positions_with_url _ _).
Qed.

Lemma getDocumentIndex_agrees_with_documentPositions_witness :
  plain_urls (preorder Sample.forest2) = true
  ∧ documentPositions (update (mkIndex Sample.forest2 ∅ ∅ [])).1 !! "a"
    = Some [0; 3]%nat
  ∧ getDocumentIndex (mkIndex Sample.forest2 ∅ ∅ []) Sample.a = 3.
Proof.
  split_and!; [reflexivity|reflexivity|].
  rewrite (getDocumentIndex_agrees_with_documentPositions
             (mkIndex Sample.forest2 ∅ ∅ []) Sample.a eq_refl).
  reflexivity.
Defined.

(** X6. [update] never changes the tree, and doing it twice is doing it
    once: the second [update] rebuilds the same caches and fires the same
    event, or throws the same exception and leaves the same caches. *)
Theorem update_idempotent (this : Index) :
  children (update this).1 = children this
  ∧ update (update this).1 = update this.
Proof.
  split; [apply update_children|].
  pose proof (update_children this) as Hkids. unfold update at 1 3.
  by rewrite Hkids.
Qed.

(** ** More on the parser *)

Lemma preorder_app (l1 l2 : list Doc) : preorder (l1 ++ l2) = preorder l1 ++ preorder l2.
Proof. unfold preorder. apply flat_map_app. Qed.

Section ParserExtras.
Variable absoluteURL : string → string.
Variable stripHash : string → string.
Variable json_parse : string → string + JSValue.

#[local] Abbreviation parseEntry' := (parseEntry absoluteURL stripHash).
#[local] Abbreviation parse' := (parse absoluteURL stripHash json_parse).
#[local] Abbreviation entry_result' := (entry_result absoluteURL stripHash).
#[local] Abbreviation entry_warnings' := (entry_warnings absoluteURL stripHash).

(** X7. [parse] adds to the tree and leaves the flat cache as it was:
    [documents], [documentMap], [documentPositions] and the number of
    documents are those of before the call, while the live query [get]
    sees the new documents at once, after the ones that were there. *)
Theorem parse_leaves_cache_stale (this : Index) (entries : list JSValue) :
  Forall valid_entry entries →
  ∃ out this' w,
    parse' this (JArr entries) = Returns (out, this') w
    ∧ documents this' = documents this
    ∧ documentMap this' = documentMap this
    ∧ documentPositions this' = documentPositions this
    ∧ getNumberOfDocuments this' = getNumberOfDocuments this
    ∧ ∀ u, get this' u
           = get this u ++ docs_with_url u (preorder (omap entry_result' entries)).
Proof.
  intros Hvalid. eexists _, _, _. split; [by apply parse_valid_array|].
  split_and!; try done.
  intros u. rewrite !get_docs_with_url. simpl.
  rewrite preorder_app. unfold docs_with_url. by rewrite filter_app.
Qed.

(** X8. Parsing an array in two parts, one after the other, is parsing it
    whole: the same documents are returned, the index ends up with the
    same children and the same warnings are left. *)
Theorem parse_in_two_parts (this : Index) (es1 es2 : list JSValue) :
  Forall valid_entry es1 → Forall valid_entry es2 →
  parse' this (JArr (es1 ++ es2))
  = ('(out1, this1) ← parse' this (JArr es1);
     '(out2, this2) ← parse' this1 (JArr es2);
     mret (out1 ++ out2, this2)).
Proof.
  intros H1 H2. rewrite !parse_valid_array by (done || by apply Forall_app).
  rewrite Returns_bind. cbn beta iota.
  rewrite parse_valid_array, Returns_bind by done.
  cbn [mret Outcome_ret with_warnings]. destruct this as [kids m p d]. simpl.
  by rewrite omap_app, fmap_app, bind_app, app_nil_r, <- !app_assoc.
Qed.


Lemma parseEntry_nullish (entry : JSValue) :
  entry = JNull ∨ entry = JUndefined →
  parseEntry' entry = Throws (TypeError "Cannot read property of null or undefined") [].
Proof. by intros [-> | ->]. Qed.

Lemma mapM_parseEntry_throws (before after : list JSValue) (entry : JSValue) :
  entry = JNull ∨ entry = JUndefined →
  ∃ e w, mapM parseEntry' (before ++ entry :: after) = Throws e w
         ∧ ((∀ x, x ∈ before → ∃ r w', parseEntry' x = Returns r w') →
            e = TypeError "Cannot read property of null or undefined"
            ∧ w = before ≫= entry_warnings').
Proof.
  intros Hnull. induction before as [|x before IH].
  - eexists _, _. cbn [app mapM]. rewrite (parseEntry_nullish entry Hnull). done.
  - destruct IH as (e & w & Hrest & Hprecise). rewrite <- app_comm_cons. cbn [mapM].
    destruct (parseEntry' x) as [r wx|ex wx] eqn:Hx.
    + rewrite Returns_bind, Hrest. cbn. eexists _, _. split; [done|].
      intros Hret. destruct Hprecise as [-> ->]; [intros; apply Hret; by right|].
      split; [done|]. f_equal. unfold entry_warnings. by rewrite Hx.
    + eexists _, _. split; [done|]. intros Hret.
      destruct (Hret x) as (? & ? & ?); [left|]. congruence.
Qed.

(** X9. One entry that is [null] or [undefined] makes the whole [parse]
    throw, whatever the other entries are; when the entries before it are
    parsed without an exception, the exception is the [TypeError] of the
    property read, after the warnings of those entries. *)
Theorem parse_throws_on_null_entry (this : Index) (before after : list JSValue)
    (entry : JSValue) :
  entry = JNull ∨ entry = JUndefined →
  ∃ e w, parse' this (JArr (before ++ entry :: after)) = Throws e w
         ∧ ((∀ x, x ∈ before → ∃ r w', parseEntry' x = Returns r w') →
            e = TypeError "Cannot read property of null or undefined"
            ∧ w = before ≫= entry_warnings').
Proof.
  intros Hnull.
  destruct (mapM_parseEntry_throws before after entry Hnull) as (e & w & Hthrow & Hprecise).
  exists e, w. split; [|done]. unfold parse. cbn [truthy negb isArray elements].
  by rewrite Hthrow.
Qed.

(** X10. An entry that is not [null] or [undefined] and has no truthy url
    (an object without url or with a falsy one, a number, a string, a
    boolean, an array) is skipped with one warning and without an
    exception, whatever else it holds: its [children] are not looked at. *)
Theorem parseEntry_skips_without_url (entry : JSValue) :
  entry ≠ JNull → entry ≠ JUndefined → has_url entry = false →
  parseEntry' entry = Returns None ["Ignored document index entry without URL"].
Proof.
  intros Hnull Hundef Hurl.
  destruct entry as [| | | | | |fields]; try done. by apply parseEntry_skipped.
Qed.

(** X11. An entry with a url whose [children] field is missing or is not
    an array (an object, a string, a number) gives a document without
    children, and no warning; its [meta] holds the fields of the entry,
    but for one named [__proto__]. *)
Theorem parseEntry_children_not_array (fields : list (string * JSValue)) (s : string) :
  lookup_field "url" fields = JStr s → s ≠ "" →
  isArray (lookup_field "children" fields) = false →
  parseEntry' (JObj fields)
  = Returns (Some (mkDoc (stripHash (absoluteURL s)) (copy_fields fields fields.*1 ∅) []))
            []
  ∧ ∀ k, copy_fields fields fields.*1 ∅ !! k
         = if decide (k ∈ fields.*1 ∧ k ≠ "__proto__")
           then Some (lookup_field k fields) else None.
Proof.
  intros Hs Hne Harr. split; [|intros k; by rewrite copy_fields_lookup, lookup_empty by done].
  assert (Hkids : child_entries (JObj fields) = []).
  { simpl. by destruct (lookup_field "children" fields). }
  rewrite (parseEntry_document absoluteURL stripHash fields s Hs).
  - by rewrite Hkids.
  - unfold has_url. simpl. rewrite Hs. by apply nonempty_truthy.
  - rewrite Hkids. by intros c ?%elem_of_nil.
Qed.

(** X25. For a raw entry with a truthy url, the document [parseEntry]
    builds has the resolved url without its fragment as [url], and a
    [meta] that holds every field of the entry but one named
    [__proto__], and nothing else: the url as the entry has it and the
    [children] field included. *)
Theorem parseEntry_meta_copies_fields (entry : JSValue) :
  valid_entry entry → has_url entry = true →
  ∃ fields s doc w,
    entry = JObj fields
    ∧ lookup_field "url" fields = JStr s
    ∧ parseEntry' entry = Returns (Some doc) w
    ∧ url doc = stripHash (absoluteURL s)
    ∧ (∀ k, meta doc !! k =
            if decide (k ∈ fields.*1 ∧ k ≠ "__proto__")
            then Some (lookup_field k fields) else None)
    ∧ (NoDup fields.*1 → ∀ k v, (k, v) ∈ fields → k ≠ "__proto__" →
       meta doc !! k = Some v)
    ∧ meta doc !! "url" = Some (JStr s)
    ∧ ("children" ∈ fields.*1 →
       meta doc !! "children" = Some (lookup_field "children" fields))
    ∧ meta doc !! "__proto__" = None.
Proof.
  intros Hvalid Hurl.
  destruct (parseEntry_valid absoluteURL stripHash entry Hvalid)
    as ((r & w & Hr) & _ & Hsome).
  destruct (Hsome Hurl) as (d & Hd & Hbuilt).
  unfold entry_result in Hd. rewrite Hr in Hd. subst r.
  destruct Hbuilt as [fields s m kids Hs Hmeta _].
  exists fields, s, (mkDoc (stripHash (absoluteURL s)) m kids), w.
  split_and!; try done.
  - intros Hnd k v Hin Hk. simpl. rewrite Hmeta, decide_True.
    + by rewrite (lookup_field_NoDup k v fields).
    + split; [|done]. apply list_elem_of_fmap. by exists (k, v).
  - simpl. rewrite Hmeta, decide_True, Hs; [done|].
    split; [|done]. apply lookup_field_key. by rewrite Hs.
  - intros Hin. simpl. by rewrite Hmeta, decide_True.
  - simpl. rewrite Hmeta, decide_False; [done|]. by intros [_ ?].
Qed.
End ParserExtras.

Lemma parse_leaves_cache_stale_witness :
  Forall valid_entry Sample.entries
  ∧ ∃ out this' w,
      parse Sample.absoluteURL Sample.stripHash Sample.json_parse
            (update (mkIndex Sample.forest ∅ ∅ [])).1 (JArr Sample.entries)
      = Returns (out, this') w
      ∧ getNumberOfDocuments this' = 4.
Proof.
  split; [exact sample_entries_valid|].
  destruct (parse_leaves_cache_stale Sample.absoluteURL Sample.stripHash
              Sample.json_parse (update (mkIndex Sample.forest ∅ ∅ [])).1
              Sample.entries sample_entries_valid)
    as (out & this' & w & Hp & _ & _ & _ & Hn & _).
  exists out, this', w. split; [exact Hp|]. rewrite Hn. reflexivity.
Defined.


Lemma parse_in_two_parts_witness :
  Forall valid_entry [Sample.entryA] ∧ Forall valid_entry [Sample.entryNoUrl; Sample.entryB]
  ∧ parse Sample.absoluteURL Sample.stripHash Sample.json_parse Index_new
          (JArr ([Sample.entryA] ++ [Sample.entryNoUrl; Sample.entryB]))
    = ('(out1, this1) ← parse Sample.absoluteURL Sample.stripHash Sample.json_parse
                               Index_new (JArr [Sample.entryA]);
       '(out2, this2) ← parse Sample.absoluteURL Sample.stripHash Sample.json_parse
                               this1 (JArr [Sample.entryNoUrl; Sample.entryB]);
       mret (out1 ++ out2, this2)).
Proof.
  assert (H1 : Forall valid_entry [Sample.entryA]) by valid_sample.
  assert (H2 : Forall valid_entry [Sample.entryNoUrl; Sample.entryB]) by valid_sample.
  split_and!; [exact H1|exact H2|].
  by apply parse_in_two_parts.
Defined.

Lemma parse_throws_on_null_entry_witness :
  ∃ e w, parse Sample.absoluteURL Sample.stripHash Sample.json_parse Index_new
               (JArr ([Sample.entryNoUrl] ++ JNull :: [Sample.entryB]))
         = Throws e w.
Proof.
  destruct (parse_throws_on_null_entry Sample.absoluteURL Sample.stripHash
              Sample.json_parse Index_new [Sample.entryNoUrl] [Sample.entryB] JNull)
    as (e & w & Hp & _); [by left|].
  by exists e, w.
Defined.

Lemma parseEntry_skips_without_url_witness :
  parseEntry Sample.absoluteURL Sample.stripHash
             (JObj [("url", JStr ""); ("children", JArr [JNull])])
  = Returns None ["Ignored document index entry without URL"]
  ∧ parseEntry Sample.absoluteURL Sample.stripHash (JNum 7)
    = Returns None ["Ignored document index entry without URL"].
Proof.
  split; apply parseEntry_skips_without_url; done.
Defined.

Lemma parseEntry_children_not_array_witness :
  parseEntry Sample.absoluteURL Sample.stripHash
             (JObj [("url", JStr "/a"); ("children", JStr "none")])
  = Returns (Some (mkDoc "http://h/a"
                     (copy_fields [("url", JStr "/a"); ("children", JStr "none")]
                                  ["url"; "children"] ∅) []))
            [].
Proof.
  apply (parseEntry_children_not_array Sample.absoluteURL Sample.stripHash
           [("url", JStr "/a"); ("children", JStr "none")] "/a"); done.
Defined.

Lemma parseEntry_meta_copies_fields_witness :
  valid_entry Sample.entryA ∧ has_url Sample.entryA = true
  ∧ ∃ doc w,
      parseEntry Sample.absoluteURL Sample.stripHash Sample.entryA = Returns (Some doc) w
      ∧ url doc = "http://h/a"
      ∧ meta doc !! "url" = Some (JStr "/a")
      ∧ meta doc !! "title" = Some (JStr "A")
      ∧ meta doc !! "children" = Some (JArr [Sample.entryB; Sample.entryNoUrl])
      ∧ meta doc !! "other" = None.
Proof.
  assert (Hvalid : valid_entry Sample.entryA) by valid_sample.
  split_and!; [exact Hvalid|reflexivity|].
  destruct (parseEntry_meta_copies_fields Sample.absoluteURL Sample.stripHash
              Sample.entryA Hvalid eq_refl)
    as (fields & s & doc & w & Hentry & Hs & Hp & Hurl & Hmeta & _ & Hmurl & Hmkids & _).
  injection Hentry as <-. injection Hs as <-.
  exists doc, w. split_and!; [exact Hp|exact Hurl|exact Hmurl|..].
  - by rewrite Hmeta.
  - apply Hmkids. simpl. rewrite !elem_of_cons. tauto.
  - rewrite Hmeta. apply decide_False. simpl.
    rewrite !elem_of_cons, elem_of_nil. intuition discriminate.
Defined.


(** ** treesaver.array.remove outside the plain range *)

Section ArrayRemoveExtras.
Context {A : Type} (undefined : A).

Lemma slice_from_drop (start k : Z) (array : list A) :
  0 ≤ k ≤ Z.of_nat (length array) →
  (if start <? 0 then Z.max (Z.of_nat (length array) + start) 0
   else Z.min start (Z.of_nat (length array))) = k →
  slice_from start array = drop (Z.to_nat k) array.
Proof. intros Hk Heq. unfold slice_from. by rewrite Heq. Qed.

(** X12. Indices of [remove] may count from the end ([-1] is the last
    element), and a [to] that is [0] is taken for an omitted one: with
    [first] the position [from] stands for and [last] the position
    [to || from] stands for, if [0 <= first <= last < length] then the
    elements at [first] to [last] are deleted and the new length
    returned. *)
Theorem remove_counts_from_end (a : list A) (from : Z) (to : option Z) :
  let len := Z.of_nat (length a) in
  let first := from_end len from in
  let last := from_end len (num_or to from) in
  len < 2 ^ 32 → 0 ≤ first → first ≤ last → last < len →
  remove undefined a from to =
  Returns (len - (last - first + 1),
           take (Z.to_nat first) a ++ drop (Z.to_nat last + 1) a) [].
Proof.
  intros len first last Hmax Hfirst Hlast Hlen. unfold remove.
  fold len. set (n := num_or to from) in *.
  assert (Hrest : slice_from (if n + 1 =? 0 then len else n + 1) a
                  = drop (Z.to_nat (last + 1)) a).
  { apply slice_from_drop; fold len; [lia|]. subst last. unfold from_end in *.
    destruct (n + 1 =? 0) eqn:Hz; [apply Z.eqb_eq in Hz|apply Z.eqb_neq in Hz];
      destruct (n <? 0) eqn:Hn; [apply Z.ltb_lt in Hn|apply Z.ltb_ge in Hn
                                |apply Z.ltb_lt in Hn|apply Z.ltb_ge in Hn];
      repeat match goal with
             | |- context [?x <? 0] =>
                 let H := fresh in destruct (x <? 0) eqn:H;
                 [apply Z.ltb_lt in H|apply Z.ltb_ge in H]
             end; lia. }
  rewrite Hrest.
  replace (if from <? 0 then len + from else from) with first by done.
  rewrite set_length_truncates by (fold len; lia).
  rewrite Returns_bind, with_warnings_nil.
  rewrite push_apply_fits by (rewrite length_app, length_take, length_drop; lia).
  replace (Z.to_nat (last + 1)) with (Z.to_nat last + 1)%nat by lia.
  do 2 f_equal. rewrite length_app, length_take, length_drop. lia.
Qed.

(** X13. With [0 < to < from <= length] nothing is deleted: the elements
    after [to] are appended to the first [from] elements, so those
    between [to] and [from] are there twice and the array is longer by
    [from - to - 1]; when that is more than the largest array length,
    [remove] throws a [RangeError] instead. *)
Theorem remove_inverted_range_grows (a : list A) (from to : Z) :
  Z.of_nat (length a) < 2 ^ 32 →
  0 < to → to < from → from ≤ Z.of_nat (length a) →
  (Z.of_nat (length a) + (from - to - 1) < 2 ^ 32 →
   remove undefined a from (Some to) =
   Returns (Z.of_nat (length a) + (from - to - 1),
            take (Z.to_nat from) a ++ drop (Z.to_nat to + 1) a) [])
  ∧ (2 ^ 32 ≤ Z.of_nat (length a) + (from - to - 1) →
     remove undefined a from (Some to) = Throws (RangeError "Invalid array length") []).
Proof.
  intros Hmax Hto Hfrom Hlen. unfold remove. simpl.
  destruct (to =? 0) eqn:Hz; [apply Z.eqb_eq in Hz; lia|].
  destruct (to + 1 =? 0) eqn:Hz1; [apply Z.eqb_eq in Hz1; lia|].
  rewrite slice_from_in_range by lia.
  destruct (from <? 0) eqn:Hneg; [apply Z.ltb_lt in Hneg; lia|].
  rewrite set_length_truncates by lia. rewrite Returns_bind, with_warnings_nil.
  assert (Hnew : Z.of_nat (length (take (Z.to_nat from) a ++ drop (Z.to_nat (to + 1)) a))
                 = Z.of_nat (length a) + (from - to - 1)).
  { rewrite length_app, length_take, length_drop. lia. }
  split.
  - intros Hfits. rewrite push_apply_fits by lia. rewrite Hnew.
    by replace (Z.to_nat (to + 1)) with (Z.to_nat to + 1)%nat by lia.
  - intros Hover. unfold push_apply. rewrite Hnew.
    by destruct (2 ^ 32 - 1 <? _) eqn:Hbig; [|apply Z.ltb_ge in Hbig; lia].
Qed.

(** X14. With [to] omitted and [from] at or past the end, nothing is
    deleted either: the array is extended with holes to the length [from],
    which is returned. *)
Theorem remove_past_end_extends (a : list A) (from : Z) :
  Z.of_nat (length a) ≤ from → from < 2 ^ 32 →
  remove undefined a from None =
  Returns (from, a ++ replicate (Z.to_nat from - length a) undefined) [].
Proof.
  intros Hlen Hmax. unfold remove, set_length, slice_from. simpl.
  destruct (from + 1 =? 0) eqn:Hz1; [apply Z.eqb_eq in Hz1; lia|].
  destruct (from + 1 <? 0) eqn:Hneg1; [apply Z.ltb_lt in Hneg1; lia|].
  destruct (from <? 0) eqn:Hneg; [apply Z.ltb_lt in Hneg; lia|].
  destruct (2 ^ 32 - 1 <? from) eqn:Hbig; [apply Z.ltb_lt in Hbig; lia|].
  rewrite ?Hneg. cbn [orb]. rewrite ret_bind.
  rewrite take_ge, drop_ge by lia.
  rewrite push_apply_fits by (rewrite app_nil_r, length_app, length_replicate; lia).
  rewrite app_nil_r. do 2 f_equal. rewrite length_app, length_replicate. lia.
Qed.

(** X15. A [from] further from the end than the array is long, or above
    the largest array length, makes [remove] throw a [RangeError] (from
    the assignment to [length]), whatever [to] is. *)
Theorem remove_throws_RangeError (a : list A) (from : Z) (to : option Z) :
  from < - Z.of_nat (length a) ∨ 2 ^ 32 ≤ from →
  remove undefined a from to = Throws (RangeError "Invalid array length") [].
Proof.
  intros Hrange. unfold remove, set_length.
  destruct (from <? 0) eqn:Hneg; [apply Z.ltb_lt in Hneg|apply Z.ltb_ge in Hneg].
  - destruct (Z.of_nat (length a) + from <? 0) eqn:Hlen; [done|].
    apply Z.ltb_ge in Hlen. lia.
  - destruct (from <? 0) eqn:Hneg'; [apply Z.ltb_lt in Hneg'; lia|].
    destruct (2 ^ 32 - 1 <? from) eqn:Hbig; [done|]. apply Z.ltb_ge in Hbig. lia.
Qed.
End ArrayRemoveExtras.

Lemma remove_counts_from_end_witness :
  remove 0 [10; 11; 12; 13; 14] (-2) None = Returns (4, [10; 11; 12; 14]) []
  ∧ remove 0 [10; 11; 12; 13; 14] 1 (Some (-2)) = Returns (2, [10; 14]) []
  ∧ remove 0 [10; 11; 12; 13; 14] 2 (Some 0) = Returns (4, [10; 11; 13; 14]) [].
Proof.
  split_and!.
  - by apply (remove_counts_from_end 0 [10; 11; 12; 13; 14] (-2) None); vm_compute.
  - by apply (remove_counts_from_end 0 [10; 11; 12; 13; 14] 1 (Some (-2))); vm_compute.
  - by apply (remove_counts_from_end 0 [10; 11; 12; 13; 14] 2 (Some 0)); vm_compute.
Defined.

Lemma remove_inverted_range_grows_witness :
  remove 0 [10; 11; 12; 13; 14] 3 (Some 1)
  = Returns (6, [10; 11; 12; 12; 13; 14]) [].
Proof.
  apply (proj1 (remove_inverted_range_grows 0 [10; 11; 12; 13; 14] 3 1
                  ltac:(simpl; lia) ltac:(lia) ltac:(lia) ltac:(simpl; lia)));
    simpl; lia.
Defined.

Lemma remove_past_end_extends_witness :
  remove 0 [10; 11] 4 None = Returns (4, [10; 11; 0; 0]) [].
Proof. apply (remove_past_end_extends 0 [10; 11] 4); simpl; lia. Defined.

Lemma remove_throws_RangeError_witness :
  remove 0 [10; 11] (-3) None = Throws (RangeError "Invalid array length") [].
Proof. apply (remove_throws_RangeError 0 [10; 11] (-3) None). left. simpl. lia. Defined.

(** ** Settings: set and get *)



(** ** The array functions for browsers without them *)

Lemma for_loop_ext {I R Acc : Type} (body1 body2 : I → Acc → R + Acc)
    (ixs : list I) (acc : Acc) :
  (∀ i acc, body1 i acc = body2 i acc) →
  for_loop body1 ixs acc = for_loop body2 ixs acc.
Proof.
  intros Hext. revert acc. induction ixs as [|i ixs IH]; intros acc; simpl; [done|].
  rewrite Hext. destruct (body2 i acc); [done|apply IH].
Qed.

Lemma for_loop_app {I R Acc : Type} (body : I → Acc → R + Acc)
    (l1 l2 : list I) (acc : Acc) :
  for_loop body (l1 ++ l2) acc =
  match for_loop body l1 acc with
  | inl r => inl r
  | inr acc' => for_loop body l2 acc'
  end.
Proof.
  revert acc. induction l1 as [|i l1 IH]; intros acc; simpl; [done|].
  destruct (body i acc); [done|apply IH].
Qed.

(** A loop over the indices of an array whose body leaves the array
    alone is a loop over the elements that are there. *)
Lemma for_loop_entries {A R Acc : Type} (arr : Acc → list (option A))
    (step : nat → A → Acc → R + Acc) (l pre : list (option A)) (acc : Acc) :
  arr acc = pre ++ l →
  (∀ i v acc acc', step i v acc = inr acc' → arr acc' = arr acc) →
  for_loop (λ i acc, match arr acc !! i with
                     | Some (Some v) => step i v acc
                     | _ => inr acc
                     end)
           (seq (length pre) (length l)) acc
  = for_loop (λ iv acc, step iv.1 iv.2 acc) (entries_from (length pre) l) acc.
Proof.
  intros Harr Hkeep. revert pre acc Harr. induction l as [|x l IH]; intros pre acc Harr.
  { done. }
  assert (Hnext : ∀ acc', arr acc' = arr acc →
            for_loop (λ i acc, match arr acc !! i with
                               | Some (Some v) => step i v acc
                               | _ => inr acc
                               end)
                     (seq (S (length pre)) (length l)) acc'
            = for_loop (λ iv acc, step iv.1 iv.2 acc) (entries_from (S (length pre)) l) acc').
  { intros acc' Hsame. specialize (IH (pre ++ [x]) acc').
    rewrite length_app, Nat.add_1_r in IH. apply IH.
    by rewrite Hsame, Harr, <- app_assoc. }
  cbn [length seq for_loop]. rewrite Harr, list_lookup_middle by done.
  destruct x as [v|]; cbn [entries_from for_loop].
  - simpl. destruct (step (length pre) v acc) as [r|acc'] eqn:Hstep; [done|].
    apply Hnext. by eapply Hkeep.
  - by apply Hnext.
Qed.

Lemma loop_as_entries {A R Acc : Type} (body : nat → Acc → R + Acc)
    (arr : Acc → list (option A)) (step : nat → A → Acc → R + Acc)
    (this : list (option A)) (acc : Acc) :
  (∀ i acc, body i acc = match arr acc !! i with
                         | Some (Some v) => step i v acc
                         | _ => inr acc
                         end) →
  arr acc = this →
  (∀ i v acc acc', step i v acc = inr acc' → arr acc' = arr acc) →
  for_loop body (seq 0 (length this)) acc
  = for_loop (λ iv acc, step iv.1 iv.2 acc) (entries_from 0 this) acc.
Proof.
  intros Hbody Harr Hkeep. rewrite (for_loop_ext _ _ _ _ Hbody).
  by apply (for_loop_entries arr step this []).
Qed.

Section PolyfillFacts.
Context {A St : Type}.
Implicit Types (this : list (option A)) (s : St).

Lemma keeps_array_snd {R : Type} (cb : A → nat → St → R * St) (v : A) (i : nat) this s :
  (keeps_array cb v i this s).2 = (this, (cb v i s).2).
Proof. unfold keeps_array. by destruct (cb v i s). Qed.

Lemma arraySome_entries (cb : A → nat → St → JSValue * St) this s :
  arraySome (keeps_array cb) this s =
  ((some_of cb (entries_from 0 this) s).1, (this, (some_of cb (entries_from 0 this) s).2)).
Proof.
  unfold arraySome. cbv zeta.
  rewrite (loop_as_entries _ fst
             (λ i v acc, let '(r, st) := keeps_array cb v i acc.1 acc.2 in
                         if truthy r then inl (true, st) else inr st) this (this, s)).
  - generalize (entries_from 0 this). intros es. revert s.
    induction es as [|[i v] es IH]; intros s; [done|].
    simpl. unfold keeps_array at 1. destruct (cb v i s) as [r s1].
    destruct (truthy r); [done|apply IH].
  - by intros i [t s0].
  - done.
  - intros i v [t s0] acc'. unfold keeps_array. simpl.
    destruct (cb v i s0) as [r s1]. destruct (truthy r); [done|]. by intros [= <-].
Qed.

Lemma arrayEvery_entries (cb : A → nat → St → JSValue * St) this s :
  arrayEvery (keeps_array cb) this s =
  ((every_of cb (entries_from 0 this) s).1, (this, (every_of cb (entries_from 0 this) s).2)).
Proof.
  unfold arrayEvery. cbv zeta.
  rewrite (loop_as_entries _ fst
             (λ i v acc, let '(r, st) := keeps_array cb v i acc.1 acc.2 in
                         if negb (truthy r) then inl (false, st) else inr st) this (this, s)).
  - generalize (entries_from 0 this). intros es. revert s.
    induction es as [|[i v] es IH]; intros s; [done|].
    simpl. unfold keeps_array at 1. destruct (cb v i s) as [r s1].
    destruct (truthy r); [apply IH|done].
  - by intros i [t s0].
  - done.
  - intros i v [t s0] acc'. unfold keeps_array. simpl.
    destruct (cb v i s0) as [r s1]. destruct (truthy r); [|done]. by intros [= <-].
Qed.

Lemma arrayFilter_entries (cb : A → nat → St → JSValue * St) this s :
  arrayFilter (keeps_array cb) this s =
  (Some <$> (filter_of cb (entries_from 0 this) s).1,
   (this, (filter_of cb (entries_from 0 this) s).2)).
Proof.
  unfold arrayFilter. cbv zeta.
  rewrite (loop_as_entries (R := Empty_set) _ (λ acc, acc.2.1)
             (λ i v acc, let '(r, st) := keeps_array cb v i acc.2.1 acc.2.2 in
                         if truthy r then inr (acc.1 ++ [Some v], st) else inr (acc.1, st))
             this ([], (this, s))).
  - match goal with |- context [for_loop ?b _ _] =>
      assert (Hgen : ∀ es s (res : list A),
                for_loop b es (Some <$> res, (this, s))
                = inr (Some <$> (res ++ (filter_of cb es s).1),
                       (this, (filter_of cb es s).2)))
    end.
    { induction es as [|[i v] es IH]; intros s0 res.
      { simpl. by rewrite app_nil_r. }
      simpl. unfold keeps_array at 1. destruct (cb v i s0) as [r s1].
      destruct (filter_of cb es s1) as [kept s2] eqn:Hrest.
      destruct (truthy r); simpl.
      - specialize (IH s1 (res ++ [v])). rewrite fmap_app in IH. simpl in IH.
        rewrite IH, Hrest. simpl. by rewrite <- app_assoc.
      - specialize (IH s1 res). by rewrite IH, Hrest. }
    by rewrite (Hgen _ s []).
  - by intros i [res [t s0]].
  - done.
  - intros i v [res [t s0]] acc'. unfold keeps_array. simpl.
    destruct (cb v i s0) as [r s1]. destruct (truthy r); by intros [= <-].
Qed.

Lemma arrayForEach_entries (cb : A → nat → St → JSValue * St) this s :
  arrayForEach (keeps_array cb) this s =
  (this, foldl (λ s iv, (cb iv.2 iv.1 s).2) s (entries_from 0 this)).
Proof.
  unfold arrayForEach. cbv zeta.
  rewrite (loop_as_entries (R := Empty_set) _ fst
             (λ i v acc, inr (keeps_array cb v i acc.1 acc.2).2) this (this, s)).
  - generalize (entries_from 0 this). intros es. revert s.
    induction es as [|[i v] es IH]; intros s; [done|].
    simpl. rewrite keeps_array_snd. apply IH.
  - by intros i [t s0].
  - done.
  - intros i v [t s0] acc'. unfold keeps_array. simpl.
    destruct (cb v i s0) as [r s1]. by intros [= <-].
Qed.

Lemma entries_from_dense (k : nat) (l : list A) :
  entries_from k (Some <$> l) = imap (λ i v, ((k + i)%nat, v)) l.
Proof.
  revert k. induction l as [|v l IH]; intros k; [done|].
  simpl. rewrite IH, Nat.add_0_r. f_equal. apply imap_ext. intros. simpl. f_equal. lia.
Qed.

Lemma for_loop_holes {R Acc : Type} (arr : Acc → list (option A))
    (body : nat → Acc → R + Acc) (step : nat → A → Acc → R + Acc)
    (k n : nat) (acc : Acc) :
  (∀ i acc, body i acc = match arr acc !! i with
                         | Some (Some v) => step i v acc
                         | _ => inr acc
                         end) →
  (∀ i v, arr acc !! i ≠ Some (Some v)) →
  for_loop body (seq k n) acc = inr acc.
Proof.
  intros Hbody Hholes. revert k. induction n as [|n IH]; intros k; [done|].
  simpl. rewrite Hbody.
  destruct (arr acc !! k) as [[v|]|] eqn:Hk; [by destruct (Hholes k v)|apply IH..].
Qed.

(** X17. [some] and [every] with a callback that leaves the array alone:
    the callback is called on the elements that are there, in the order of
    their indices and with their indices, holes are passed over, and the
    loop ends at the first truthy ([some]) or falsy ([every]) result; the
    array is as it was. For a callback without effects, [some] of a
    predicate is the negation of [every] of its negation. *)
Theorem arraySome_arrayEvery_on_elements (cb : A → nat → St → JSValue * St)
    (p : A → nat → JSValue) this s :
  arraySome (keeps_array cb) this s
  = ((some_of cb (entries_from 0 this) s).1,
     (this, (some_of cb (entries_from 0 this) s).2))
  ∧ arrayEvery (keeps_array cb) this s
    = ((every_of cb (entries_from 0 this) s).1,
       (this, (every_of cb (entries_from 0 this) s).2))
  ∧ (arraySome (keeps_array (λ v i s, (p v i, s))) this s).1
    = negb (arrayEvery (keeps_array (λ v i s, (JBool (negb (truthy (p v i))), s)))
                       this s).1.
Proof.
  split_and!; [apply arraySome_entries|apply arrayEvery_entries|].
  rewrite arraySome_entries, arrayEvery_entries. simpl.
  generalize (entries_from 0 this). intros es.
  induction es as [|[i v] es IH]; [done|]. simpl.
  destruct (truthy (p v i)); [done|apply IH].
Qed.

(** X18. On an array with nothing in it (empty, or holes only) no
    callback is ever called, whatever it is: [every] is true, [some] is
    false, [filter] and [map] return the empty array (for [map] also when
    the array has a length), [forEach] does nothing. *)
Theorem array_functions_on_holes
    (fun_ : A → nat → list (option A) → St → JSValue * (list (option A) * St))
    this s :
  (∀ x, x ∈ this → x = None) →
  arrayEvery fun_ this s = (true, (this, s))
  ∧ arraySome fun_ this s = (false, (this, s))
  ∧ arrayFilter fun_ this s = ([], (this, s))
  ∧ arrayMap fun_ this s = ([], (this, s))
  ∧ arrayForEach fun_ this s = (this, s).
Proof.
  intros Hholes.
  assert (Hnone : ∀ i v, this !! i ≠ Some (Some v)).
  { intros i v Hi. by specialize (Hholes _ (list_elem_of_lookup_2 _ _ _ Hi)). }
  unfold arrayEvery, arraySome, arrayFilter, arrayMap, arrayForEach. cbv zeta.
  split_and!.
  - by rewrite (for_loop_holes fst _
                  (λ i v acc, let '(r, st) := fun_ v i acc.1 acc.2 in
                              if negb (truthy r) then inl (false, st) else inr st))
      by (done || by intros i [??]).
  - by rewrite (for_loop_holes fst _
                  (λ i v acc, let '(r, st) := fun_ v i acc.1 acc.2 in
                              if truthy r then inl (true, st) else inr st))
      by (done || by intros i [??]).
  - by rewrite (for_loop_holes (R := Empty_set) (λ acc, acc.2.1) _
                  (λ i v acc, let '(r, st) := fun_ v i acc.2.1 acc.2.2 in
                              if truthy r then inr (acc.1 ++ [Some v], st)
                              else inr (acc.1, st)))
      by (done || by intros i [? [??]]).
  - by rewrite (for_loop_holes (R := Empty_set) (λ acc, acc.2.1) _
                  (λ i v acc, let '(r, st) := fun_ v i acc.2.1 acc.2.2 in
                              inr (array_set i r acc.1, st)))
      by (done || by intros i [? [??]]).
  - by rewrite (for_loop_holes (R := Empty_set) fst _
                  (λ i v acc, inr (fun_ v i acc.1 acc.2).2))
      by (done || by intros i [??]).
Qed.

(** X20. [filter] with a callback that leaves the array alone returns an
    array without holes: the elements that are there and for which the
    callback returned a truthy value, in their order; on an array without
    holes and with a predicate without effects it is the filter of the
    list. *)
Theorem arrayFilter_keeps_elements (cb : A → nat → St → JSValue * St)
    (p : A → bool) this (l : list A) s :
  arrayFilter (keeps_array cb) this s
  = (Some <$> (filter_of cb (entries_from 0 this) s).1,
     (this, (filter_of cb (entries_from 0 this) s).2))
  ∧ arrayFilter (keeps_array (λ v i s, (JBool (p v), s))) (Some <$> l) s
    = (Some <$> filter (λ v, p v) l, (Some <$> l, s)).
Proof.
  split; [apply arrayFilter_entries|].
  assert (Hdense : ∀ k, filter_of (λ v (i : nat) s, (JBool (p v), s))
                                  (entries_from k (Some <$> l)) s
                        = (filter (λ v, p v) l, s)).
  { induction l as [|v l IH]; intros k; [done|].
    cbn [fmap list_fmap entries_from filter_of truthy]. rewrite IH, filter_cons.
    destruct (p v); case_decide as Hd; try done; by destruct Hd. }
  by rewrite arrayFilter_entries, Hdense.
Qed.

(** X21. [forEach] with a callback that leaves the array alone calls it
    once on every element that is there, in the order of the indices and
    with the index of the element, and on nothing else. *)
Theorem arrayForEach_visits_elements (cb : A → nat → St → JSValue * St)
    this (l : list A) s :
  arrayForEach (keeps_array cb) this s
  = (this, foldl (λ s iv, (cb iv.2 iv.1 s).2) s (entries_from 0 this))
  ∧ arrayForEach (keeps_array cb) (Some <$> l) s
    = (Some <$> l, foldl (λ s iv, (cb iv.2 iv.1 s).2) s (imap (λ i v, (i, v)) l)).
Proof.
  split; [apply arrayForEach_entries|].
  by rewrite arrayForEach_entries, entries_from_dense.
Qed.
End PolyfillFacts.

Section ArrayMapFacts.
Context {A B St : Type}.

Lemma strip_trailing_holes_length (l : list (option B)) :
  (length (strip_trailing_holes l) ≤ length l)%nat.
Proof.
  induction l as [|x l IH]; simpl; [done|].
  destruct x, (strip_trailing_holes l); simpl in *; lia.
Qed.

Lemma strip_trailing_holes_dense (l : list B) :
  strip_trailing_holes (Some <$> l) = Some <$> l.
Proof.
  induction l as [|x l IH]; [done|].
  cbn [fmap list_fmap strip_trailing_holes] in *. by rewrite IH.
Qed.

Lemma array_set_past_end (i : nat) (v : B) (res : list (option B)) :
  (length res ≤ i)%nat →
  array_set i v res = res ++ replicate (i - length res) None ++ [Some v].
Proof. intros Hi. unfold array_set. rewrite decide_False; [done|lia]. Qed.

(** The loop of [map] over the elements from index [k] on, when the new
    array is no longer than [k]. *)
Lemma arrayMap_loop (g : A → nat → B) (this l : list (option A)) (s : St)
    (k : nat) (res : list (option B)) :
  (length res ≤ k)%nat →
  for_loop (R := Empty_set)
    (λ iv acc, let '(r, st) := keeps_array (λ v i s, (g v i, s)) iv.2 iv.1 acc.2.1 acc.2.2 in
               inr (array_set iv.1 r acc.1, st))
    (entries_from k l) (res, (this, s))
  = inr (match strip_trailing_holes (imap (λ i o, (λ v, g v (k + i)%nat) <$> o) l) with
         | [] => res
         | tail => res ++ replicate (k - length res) None ++ tail
         end, (this, s)).
Proof.
  revert k res. induction l as [|x l IH]; intros k res Hres; [done|].
  assert (Hshift : imap ((λ i o, (λ v, g v (k + i)%nat) <$> o) ∘ S) l
                   = imap (λ i o, (λ v, g v (S k + i)%nat) <$> o) l).
  { apply imap_ext. intros i o _. simpl. by replace (k + S i)%nat with (S (k + i)) by lia. }
  rewrite imap_cons, Hshift. cbn [strip_trailing_holes].
  destruct x as [v|]; cbn [entries_from for_loop fmap option_fmap option_map].
  - unfold keeps_array at 1. cbn [fst snd]. rewrite Nat.add_0_r.
    rewrite IH, array_set_past_end by (rewrite ?array_set_past_end,
      ?length_app, ?length_replicate by done; simpl; lia).
    rewrite !length_app, length_replicate. simpl.
    replace (S k - (length res + (k - length res + 1)))%nat with 0%nat by lia.
    f_equal. f_equal.
    destruct (strip_trailing_holes _); simpl; by rewrite <- ?app_assoc, ?app_nil_r.
  - rewrite IH by lia.
    f_equal. f_equal. destruct (strip_trailing_holes _) as [|y tail]; [done|].
    replace (S k - length res)%nat with (S (k - length res)) by lia.
    by rewrite replicate_S_end, <- app_assoc.
Qed.

(** X19. [map] with a function without effects: every element that is
    there is replaced by its image (the function gets the element and its
    index), a hole stays a hole, and the holes at the end of the array are
    lost, so the new array can be shorter than the old one but never
    longer; on an array without holes the new array has the same length
    and is the list of the images. *)
Theorem arrayMap_keeps_holes_but_trailing (g : A → nat → B)
    (this : list (option A)) (l : list A) (s : St) :
  arrayMap (keeps_array (λ v i s, (g v i, s))) this s
  = (strip_trailing_holes (imap (λ i o, (λ v, g v i) <$> o) this), (this, s))
  ∧ (length (arrayMap (keeps_array (λ v i s, (g v i, s))) this s).1 ≤ length this)%nat
  ∧ arrayMap (keeps_array (λ v i s, (g v i, s))) (Some <$> l) s
    = (Some <$> imap (λ i v, g v i) l, (Some <$> l, s)).
Proof.
  assert (Hmap : ∀ this, arrayMap (keeps_array (λ v i s, (g v i, s))) this s
            = (strip_trailing_holes (imap (λ i o, (λ v, g v i) <$> o) this), (this, s))).
  { clear this. intros this. unfold arrayMap. cbv zeta.
    rewrite (loop_as_entries (R := Empty_set) _ (λ acc, acc.2.1)
               (λ i v acc,
                  let '(r, st) := keeps_array (λ v i s, (g v i, s)) v i acc.2.1 acc.2.2 in
                  inr (array_set i r acc.1, st)) this ([], (this, s))).
    - rewrite (arrayMap_loop g this this s 0 []) by done. simpl.
      by destruct (strip_trailing_holes _).
    - by intros i [res [t s0]].
    - done.
    - intros i v [res [t s0]] acc'. unfold keeps_array. simpl. by intros [= <-]. }
  split_and!.
  - apply Hmap.
  - rewrite Hmap. simpl. etrans; [apply strip_trailing_holes_length|].
    by rewrite length_imap.
  - rewrite Hmap. f_equal.
    rewrite imap_fmap, <- (strip_trailing_holes_dense (imap _ l)), fmap_imap. done.
Qed.
End ArrayMapFacts.

Section ArrayIndexOfFacts.
Context {A : Type} `{EqDecision A} (undefined : A).

Lemma for_loop_search (p : Z → bool) (m n : Z) :
  match for_loop (λ i (u : unit), if p i then inl i else inr u) (seqZ m n) tt with
  | inl r => m ≤ r < m + n ∧ p r = true ∧ ∀ i, m ≤ i < r → p i = false
  | inr _ => ∀ i, m ≤ i < m + n → p i = false
  end.
Proof.
  remember (Z.to_nat n) as k eqn:Hk. revert m n Hk.
  induction k as [|k IH]; intros m n Hk.
  - rewrite seqZ_nil by lia. simpl. intros i Hi. lia.
  - rewrite seqZ_cons by lia. simpl. destruct (p m) eqn:Hm.
    + split; [lia|]. split; [done|]. intros i Hi. lia.
    + specialize (IH (Z.succ m) (Z.pred n)).
      destruct (for_loop _ (seqZ (Z.succ m) (Z.pred n)) tt) as [r|[]].
      * destruct IH as (Hr & HP & Hbefore); [lia|]. split; [lia|]. split; [done|].
        intros i Hi. destruct (decide (i = m)) as [->|Hne]; [done|apply Hbefore; lia].
      * intros i Hi. destruct (decide (i = m)) as [->|Hne]; [done|apply IH; lia].
Qed.

Lemma array_get_dense (l : list A) (i : nat) (x : A) :
  l !! i = Some x → array_get undefined (Some <$> l) (Z.of_nat i) = x.
Proof.
  intros Hi. unfold array_get.
  destruct (Z.of_nat i <? 0) eqn:Hneg; [apply Z.ltb_lt in Hneg; lia|].
  by rewrite Nat2Z.id, list_lookup_fmap, Hi.
Qed.

Lemma indexOf_search (strict_eq : A → A → bool) (this : list (option A)) (obj : A)
    (start : option Z) :
  let i0 := num_or start 0 in
  let len := Z.of_nat (length this) in
  let r := indexOf strict_eq undefined this obj start in
  (i0 ≤ r < len ∧ strict_eq (array_get undefined this r) obj = true
   ∧ ∀ i, i0 ≤ i < r → strict_eq (array_get undefined this i) obj = false)
  ∨ (r = -1 ∧ ∀ i, i0 ≤ i < len → strict_eq (array_get undefined this i) obj = false).
Proof.
  intros i0 len r. subst r. unfold indexOf. fold i0 len.
  pose proof (for_loop_search (λ i, strict_eq (array_get undefined this i) obj)
                i0 (len - i0)) as Hs.
  destruct (for_loop _ (seqZ i0 (len - i0)) tt) as [r|[]].
  - left. destruct Hs as (Hr & HP & Hbefore). split; [lia|]. by split.
  - right. split; [done|]. intros i Hi. apply Hs. lia.
Qed.

(** X22. [indexOf(obj, start)] returns the first index at or after
    [start] (after [0] when [start] is omitted or [0]) and below the
    length at which the array reads as a value strictly equal to [obj],
    and [-1] when there is none; a hole reads as [undefined]. On an array
    without holes and without a [start] the result is [-1] exactly when
    no element is strictly equal to [obj], and otherwise the index of an
    element strictly equal to [obj]. So an [obj] that is strictly equal
    to nothing, as [NaN], is never found, also where it is an element;
    where strict equality to [obj] is equality, the result is [-1]
    exactly when [obj] is not an element, and otherwise an index of
    [obj]. *)
Theorem arrayIndexOf_first_match (strict_eq : A → A → bool) (this : list (option A))
    (l : list A) (obj : A) (start : option Z) :
  let i0 := num_or start 0 in
  let len := Z.of_nat (length this) in
  let r := indexOf strict_eq undefined this obj start in
  let r0 := indexOf strict_eq undefined (Some <$> l) obj None in
  ((i0 ≤ r < len ∧ strict_eq (array_get undefined this r) obj = true
    ∧ ∀ i, i0 ≤ i < r → strict_eq (array_get undefined this i) obj = false)
   ∨ (r = -1 ∧ ∀ i, i0 ≤ i < len → strict_eq (array_get undefined this i) obj = false))
  ∧ (r0 = -1 ↔ ∀ x, x ∈ l → strict_eq x obj = false)
  ∧ (r0 ≠ -1 → ∃ x, l !! Z.to_nat r0 = Some x ∧ strict_eq x obj = true)
  ∧ ((∀ x, strict_eq x obj = false) → r = -1)
  ∧ ((∀ x, strict_eq x obj = true ↔ x = obj) →
     (r0 = -1 ↔ obj ∉ l) ∧ (r0 ≠ -1 → l !! Z.to_nat r0 = Some obj)).
Proof.
  intros i0 len r r0.
  assert (Hdense : (r0 = -1 ↔ ∀ x, x ∈ l → strict_eq x obj = false)
                   ∧ (r0 ≠ -1 → ∃ x, l !! Z.to_nat r0 = Some x ∧ strict_eq x obj = true)).
  { pose proof (indexOf_search strict_eq (Some <$> l) obj None) as Hspec.
    cbn zeta in Hspec. fold r0 in Hspec. simpl in Hspec. rewrite length_fmap in Hspec.
    destruct Hspec as [(Hr & Hobj & _)|[Hr Hnone]].
    - destruct (lookup_lt_is_Some_2 l (Z.to_nat r0)) as [x Hx]; [lia|].
      pose proof (array_get_dense _ _ _ Hx) as Hx'. rewrite Z2Nat.id in Hx' by lia.
      rewrite Hx' in Hobj. split; [|by exists x].
      split; [intros Heq; lia|]. intros Hnone.
      rewrite (Hnone x) in Hobj; [done|]. by eapply list_elem_of_lookup_2.
    - split; [|done]. split; [|done]. intros _ x [i Hi]%list_elem_of_lookup.
      rewrite <- (array_get_dense _ _ _ Hi). apply Hnone.
      apply lookup_lt_Some in Hi. lia. }
  destruct Hdense as [Hnone Hsome]. split_and!.
  - apply indexOf_search.
  - done.
  - done.
  - intros Hnever.
    destruct (indexOf_search strict_eq this obj start) as [(_ & Hr & _)|[Hr _]];
      [by rewrite Hnever in Hr|done].
  - intros Heq. split.
    + rewrite Hnone. split.
      * intros Hl Hin. specialize (Hl obj Hin).
        by rewrite (proj2 (Heq obj) eq_refl) in Hl.
      * intros Hnotin x Hx. destruct (strict_eq x obj) eqn:Hxo; [|done].
        apply Heq in Hxo. by subst x.
    + intros Hr. destruct (Hsome Hr) as (x & Hx & Hxo). apply Heq in Hxo. by subst x.
Qed.

(** X23. A negative [start] is not counted from the end of the array: for
    an [obj] other than [undefined] the whole array is searched, as
    without a [start]; for [undefined] the result is [start] itself, the
    array reading as [undefined] at a negative index. *)
Theorem arrayIndexOf_negative_start (this : list (option A)) (obj : A) (start : Z) :
  start < 0 →
  (obj ≠ undefined →
   arrayIndexOf undefined this obj (Some start) = arrayIndexOf undefined this obj None)
  ∧ (obj = undefined → arrayIndexOf undefined this obj (Some start) = start).
Proof.
  intros Hstart. unfold arrayIndexOf, indexOf. simpl.
  destruct (start =? 0) eqn:Hz; [apply Z.eqb_eq in Hz; lia|]. split.
  - intros Hobj.
    replace (Z.of_nat (length this) - start)
      with (- start + (Z.of_nat (length this) - 0)) by lia.
    rewrite seqZ_app by lia. rewrite for_loop_app.
    replace (start + - start) with 0 by lia.
    pose proof (for_loop_search (λ i, bool_decide (array_get undefined this i = obj))
                  start (- start)) as Hs.
    destruct (for_loop _ (seqZ start (- start)) tt) as [r|[]]; [|done].
    destruct Hs as (Hr & HP & _). apply bool_decide_eq_true in HP.
    unfold array_get in HP.
    destruct (r <? 0) eqn:Hneg; [by subst obj|]. apply Z.ltb_ge in Hneg. lia.
  - intros ->. rewrite seqZ_cons by lia. simpl.
    assert (Hget : array_get undefined this start = undefined).
    { unfold array_get. destruct (start <? 0) eqn:Hneg; [done|].
      apply Z.ltb_ge in Hneg. lia. }
    by rewrite bool_decide_eq_true_2.
Qed.
End ArrayIndexOfFacts.

Lemma array_functions_on_holes_witness :
  arrayMap (λ (v : Z) (i : nat) this (s : unit), (JNum v, (this, s))) [None; None; None] tt
  = ([], ([None; None; None], tt))
  ∧ arrayEvery (λ (v : Z) (i : nat) this (s : unit), (JBool false, (this, s)))
               [None; None; None] tt
    = (true, ([None; None; None], tt)).
Proof.
  assert (Hholes : ∀ x : option Z, x ∈ [None; None; None] → x = None).
  { intros x Hx. repeat (apply elem_of_cons in Hx as [->|Hx]; [done|]).
    by apply elem_of_nil in Hx. }
  split.
  - apply (array_functions_on_holes
             (λ (v : Z) (i : nat) this (s : unit), (JNum v, (this, s)))
             [None; None; None] tt Hholes).
  - apply (array_functions_on_holes
             (λ (v : Z) (i : nat) this (s : unit), (JBool false, (this, s)))
             [None; None; None] tt Hholes).
Defined.

Lemma arrayIndexOf_first_match_witness :
  indexOf Sample.strict_eq Sample.VUndefined
          [Some Sample.VNaN; Some (Sample.VNum 1)] Sample.VNaN None = -1.
Proof.
  apply (proj1 (proj2 (proj2 (proj2
           (arrayIndexOf_first_match Sample.VUndefined Sample.strict_eq
              [Some Sample.VNaN; Some (Sample.VNum 1)] [] Sample.VNaN None))))).
  intros x. by destruct x.
Defined.

Lemma arrayIndexOf_negative_start_witness :
  arrayIndexOf 0 [Some 5; Some 7; Some 9] 9 (Some (-1)) = 2
  ∧ arrayIndexOf 0 [Some 5; Some 7; Some 9] 0 (Some (-2)) = -2.
Proof.
  destruct (arrayIndexOf_negative_start 0 [Some 5; Some 7; Some 9] 9 (-1)) as [H9 _]; [lia|].
  destruct (arrayIndexOf_negative_start 0 [Some 5; Some 7; Some 9] 0 (-2)) as [_ H0]; [lia|].
  split; [rewrite H9; [reflexivity|discriminate]|by apply H0].
Defined.

Example array_functions_samples :
  arrayMap (keeps_array (λ (v : Z) (i : nat) (s : unit), (2 * v, s)))
           [Some 1; None; Some 3; None; None] tt
  = ([Some 2; None; Some 6], ([Some 1; None; Some 3; None; None], tt))
  ∧ arrayFilter (λ (v : Z) (i : nat) this (s : list Z), (JBool (v <? 3), (this, s ++ [v])))
                [Some 1; None; Some 3; Some 2] []
    = ([Some 1; Some 2], ([Some 1; None; Some 3; Some 2], [1; 3; 2]))
  ∧ arrayForEach (λ (v : Z) (i : nat) this (s : list Z),
                    (JUndefined, (<[S i := Some (v + 1)]> this, s ++ [v])))
                 [Some 1; None; Some 3; Some 2] []
    = ([Some 1; Some 2; Some 3; Some 4], [1; 2; 3; 4])
  ∧ arrayIndexOf 0 [Some 1; None; Some 3; Some 2] 0 None = 1.
Proof. split_and!; reflexivity. Qed.

(** ** walk on the every of array.js *)

Lemma every_of_dense {St : Type} (cb : Doc → St → bool * St)
    (cbJ : Doc → nat → St → JSValue * St) (l : list Doc) (k : nat) (s : St) :
  (∀ d i s, (truthy (cbJ d i s).1, (cbJ d i s).2) = cb d s) →
  every_of cbJ (entries_from k (Some <$> l)) s = every cb l s.
Proof.
  intros Hcb. revert k s. induction l as [|d l IH]; intros k s; [done|].
  cbn [fmap list_fmap entries_from every_of every]. rewrite <- (Hcb d k s).
  destruct (cbJ d k s) as [r s1]. simpl. destruct (truthy r); [|done].
  specialize (IH (S k) s1). by cbn [fmap list_fmap] in IH.
Qed.

(** X24. [walk] gives the same traversal when [every] is the function of
    array.js instead of the browser's: with the callback of the source,
    [fn(entry) !== false && this.walk(entry.children)], [arrayEvery] on the
    children returns what [walk] returns and leaves the visitor's state as
    [walk] leaves it. *)
Theorem walk_on_arrayEvery {St : Type} (fn : Doc → St → JSValue * St)
    (forest : list Doc) (s : St) :
  let callback (entry : Doc) (i : nat) (s : St) : JSValue * St :=
    let '(v, s1) := fn entry s in
    if strict_neq_false v
    then (JBool (walk fn (children entry) s1).1, (walk fn (children entry) s1).2)
    else (JBool false, s1) in
  arrayEvery (keeps_array callback) (Some <$> forest) s
  = ((walk fn forest s).1, (Some <$> forest, (walk fn forest s).2)).
Proof.
  intros callback. rewrite arrayEvery_entries, walk_unfold.
  rewrite (every_of_dense
             (λ entry s, let '(v, s1) := fn entry s in
                         if strict_neq_false v then walk fn (children entry) s1
                         else (false, s1)) callback); [done|].
  intros d i s0. unfold callback. destruct (fn d s0) as [v s1].
  destruct (strict_neq_false v); [|done]. by destruct (walk fn (children d) s1).
Qed.
